(** * medspaCy matcher: rule registry, overlap pruning and span materialisation

    A shallow embedding of [medspacy/common/medspacy_matcher.py] (and of the
    older copy of the same code in [medspacy/target_matcher/medspacy_matcher.py])
    together with the properties of it that the design document states.

    Python integers are unbounded, so token offsets and match ids are [Z] and
    the rule counter is [N].  Exceptions are values of [exn]; a computation
    either returns or raises ([outcome]).  The recursion of
    [prune_overlapping_matches] is not structural, so its model carries a
    budget of recursive calls and answers [None] when the budget is used up;
    the theorems below show that a budget of [length matches] is always
    enough. *)

From stdpp Require Import gmap strings list fin_maps pretty sorting.
From Stdlib Require Import ZArith Lia Ascii.

Local Open Scope Z_scope.

(** ** Exceptions and outcomes *)

Inductive exn : Type :=
  | NotImplementedError
  | ValueError_not_base_rule
  | ValueError_pattern_type (type_name : string)
  | IndexError
  | KeyError (key : Z)
  | AttributeError
  | TypeError
  | OverflowError.

Inductive outcome (A : Type) : Type :=
  | Return (a : A)
  | Raise (e : exn).

Arguments Return {A} a.
Arguments Raise {A} e.

(** ** Matches

    A match is the Python tuple [(match_id, start, end)]. *)

Definition Match : Type := Z * Z * Z.

Definition m_id (m : Match) : Z := m.1.1.
Definition m_start (m : Match) : Z := m.1.2.
Definition m_end (m : Match) : Z := m.2.

(** The data model has [0 <= start < end] for a match.  Of this the
    properties below need only that the end is not before the start. *)
Definition range_ordered (m : Match) : Prop := m_start m <= m_end m.

(** ** Rules and the objects [add] is handed *)

Definition token_pattern : Type := list (string * string).

Definition callback : Type := N.

Inductive pattern_value : Type :=
  | PatternNone
  | PatternStr (source : string)
  | PatternList (tokens : list token_pattern)
  | PatternOther (type_name : string).

(** Modelled from the spec: the class [BaseRule] of
    [medspacy/common/base_rule.py], which is not among the sources.  A rule
    carries a category, a literal, a pattern that is absent ([None]), a
    string or a list of token-attribute dictionaries, an optional
    [on_match] callback, and the attribute [_rule_id] that [add] assigns.
    The code inspects the pattern with [isinstance], so a pattern of any
    other type is representable too. *)
Record BaseRule : Type := mkBaseRule {
  literal : string;
  category : string;
  pattern : pattern_value;
  on_match : option callback;
  _rule_id : option string
}.

Definition set_rule_id (rule_id : string) (r : BaseRule) : BaseRule :=
  mkBaseRule (literal r) (category r) (pattern r) (on_match r) (Some rule_id).

(** Rules are Python objects: [add] receives references to them and writes
    their [_rule_id] attribute in place.  The heap maps a reference to the
    object it denotes, which is a rule or an object of some other class. *)

Definition loc : Type := positive.

Inductive pyobj : Type :=
  | RuleObj (r : BaseRule)
  | OtherObj (type_name : string).

(** Modelled from the spec: the engines, [RegexMatcher] of
    [medspacy/common/regex_matcher.py] (not among the sources) and spaCy's
    [Matcher] and [PhraseMatcher].  Their [add(key, patterns, on_match)]
    associates the patterns and the callback with the key; an engine is
    represented by the registrations it has received. *)
Definition registration (P : Type) : Type := string * list P * option callback.

(** The document the phrase engine is given: the result of [self.nlp(text)]
    or of [self.nlp.make_doc(text)], both external to this code. *)
Inductive phrase_doc : Type :=
  | NlpCall (text : string)
  | MakeDocCall (text : string).

(** [str.lower()] on strings of ASCII characters: the letters A to Z go
    to a to z and every other byte is kept.  Python's [str.lower] also
    lower-cases the letters outside ASCII, so the model is exact on ASCII
    strings only. *)
Definition ascii_lower (c : ascii) : ascii :=
  let n := nat_of_ascii c in
  if ((65 <=? n) && (n <=? 90))%nat then ascii_of_nat (n + 32) else c.

Fixpoint lower (s : string) : string :=
  match s with
  | EmptyString => EmptyString
  | String c s' => String (ascii_lower c) (lower s')
  end.

(** ** Stateful computations that may raise

    [add] mutates the registry and the rule objects and can raise half-way;
    the state reached when the exception is raised is the state the caller
    is left with. *)

Definition M (S A : Type) : Type := S → outcome A * S.

Definition ret {S A} (a : A) : M S A := λ σ, (Return a, σ).

Definition bind {S A B} (m : M S A) (k : A → M S B) : M S B :=
  λ σ, match m σ with
       | (Return a, σ') => k a σ'
       | (Raise e, σ') => (Raise e, σ')
       end.

Definition raise {S A} (e : exn) : M S A := λ σ, (Raise e, σ).

Definition gets {S A} (f : S → A) : M S A := λ σ, (Return (f σ), σ).

Definition modify {S} (f : S → S) : M S unit := λ σ, (Return tt, f σ).

Notation "x <- m ;; k" := (bind m (λ x, k))
  (at level 100, m at next level, right associativity).
Notation "m ;; k" := (bind m (λ _, k))
  (at level 100, right associativity).

(** [for x in xs: body(x)] *)
Fixpoint for_each {S A} (xs : list A) (body : A → M S unit) : M S unit :=
  match xs with
  | [] => ret tt
  | x :: xs' => body x ;; for_each xs' body
  end.

(** ** [sorted(matches, key=lambda x: (x[1], x[2]))]

    Python's [sorted] is stable and compares the keys, here pairs of
    integers, lexicographically.  Insertion from the right, each element
    placed in front of the first element whose key is not smaller, is such a
    stable sort. *)

Definition sort_key (x : Match) : Z * Z := (m_start x, m_end x).

Definition key_leb (k1 k2 : Z * Z) : bool :=
  (k1.1 <? k2.1) || ((k1.1 =? k2.1) && (k1.2 <=? k2.2)).

Fixpoint insert_by_key (x : Match) (l : list Match) : list Match :=
  match l with
  | [] => [x]
  | y :: l' =>
      if key_leb (sort_key x) (sort_key y) then x :: y :: l'
      else y :: insert_by_key x l'
  end.

Fixpoint sorted (matches : list Match) : list Match :=
  match matches with
  | [] => []
  | x :: l => insert_by_key x (sorted l)
  end.

(** ** [max(curr_match, next_match, key=lambda x: (x[2] - x[1]))]

    Python's [max] keeps the first of its arguments unless a later one has a
    strictly larger key. *)

Definition span_length (x : Match) : Z := m_end x - m_start x.

Definition max_by_span_length (curr_match next_match : Match) : Match :=
  if span_length curr_match <? span_length next_match then next_match
  else curr_match.

(** ** [medspacy/common/medspacy_matcher.py] *)

Module Common.

(** *** The overlap test *)

(** [_match_overlaps(a, b)] *)
Definition _match_overlaps (a b : Match) : bool :=
  let '(_, a_start, a_end) := a in
  let '(_, b_start, b_end) := b in
  if (a_start >=? b_start) && (a_start <? b_end) then true
  else if (a_end >? b_start) && (a_end <=? b_end) then true
  else false.

(** [overlaps(a, b)] *)
Definition overlaps (a b : Match) : bool :=
  if _match_overlaps a b || _match_overlaps b a then true else false.

(** *** The [while True] loop

    The loop state is the list [pruned] (appended to), the variable
    [curr_match] and the list [unpruned] (popped from the front).  Every
    iteration pops at least one element of [unpruned], which is what the
    recursion is structural on. *)

Fixpoint prune_loop (pruned : list Match) (curr_match : Match)
    (unpruned : list Match) {struct unpruned} : list Match :=
  match unpruned with
  | [] => pruned ++ [curr_match]
  | next_match :: unpruned1 =>
      if overlaps curr_match next_match then
        let longer_span := max_by_span_length curr_match next_match in
        let pruned1 := pruned ++ [longer_span] in
        match unpruned1 with
        | [] => pruned1
        | curr_match' :: unpruned2 => prune_loop pruned1 curr_match' unpruned2
        end
      else prune_loop (pruned ++ [curr_match]) next_match unpruned1
  end.

(** *** [prune_overlapping_matches]

    [fuel] bounds the number of recursive calls that may still be made. *)

Fixpoint prune_overlapping_matches (fuel : nat) (matches : list Match)
    (strategy : string) {struct fuel} : option (outcome (list Match)) :=
  if negb (String.eqb strategy "longest") then Some (Raise NotImplementedError)
  else
    let unpruned := sorted matches in
    let num_matches := length matches in
    if (num_matches =? 0)%nat then Some (Return matches)
    else
      match unpruned with
      | [] => Some (Raise IndexError)
      | curr_match :: unpruned0 =>
          let pruned := prune_loop [] curr_match unpruned0 in
          if (length pruned =? num_matches)%nat then Some (Return pruned)
          else
            match fuel with
            | O => None
            | S fuel' => prune_overlapping_matches fuel' pruned "longest"
            end
      end.

(** *** [matches_to_spans]

    [Doc] and [Span] are spaCy's.  A document is represented by its tokens
    and by the strings its vocabulary has interned, each under its integer
    id; a span by the document, the start, the end and the label it was
    made with. *)

Record Doc : Type := mkDoc {
  doc_tokens : list string;
  doc_vocab_strings : gmap Z string
}.

Record Span : Type := mkSpan {
  span_doc : Doc;
  span_start : Z;
  span_end : Z;
  span_label : option string
}.

Section MatchesToSpans.

(** The two calls into spaCy that [matches_to_spans] makes are external:
    [doc.vocab.strings[rule_id]], which answers with a string or raises,
    and [Span(doc, start=start, end=end, label=label)], which answers with
    a span or raises; [label] is a string or [None].  Both are taken as
    they are, whatever they answer. *)
Variable strings_getitem : Doc → Z → outcome string.
Variable new_Span : Doc → Z → Z → option string → outcome Span.

(** The [for] loop of [matches_to_spans], with the list [spans] it appends
    to. *)
Fixpoint matches_to_spans_loop (doc : Doc) (set_label : bool)
    (spans : list Span) (matches : list Match) : outcome (list Span) :=
  match matches with
  | [] => Return spans
  | (rule_id, start, end_) :: matches' =>
      let label :=
        if set_label then
          match strings_getitem doc rule_id with
          | Return s => Return (Some s)
          | Raise e => Raise e
          end
        else Return None in
      match label with
      | Raise e => Raise e
      | Return label =>
          match new_Span doc start end_ label with
          | Raise e => Raise e
          | Return span =>
              matches_to_spans_loop doc set_label (spans ++ [span]) matches'
          end
      end
  end.

Definition matches_to_spans (doc : Doc) (matches : list Match)
    (set_label : bool) : outcome (list Span) :=
  matches_to_spans_loop doc set_label [] matches.

End MatchesToSpans.

(** *** The registry: [MedspacyMatcher]

    The three engines ([Matcher] and [PhraseMatcher] of spaCy and
    [RegexMatcher]) are external; each is represented by the registrations
    it has received, oldest first. *)

Record MedspacyMatcher : Type := mkMedspacyMatcher {
  _labels : gset string;
  _rule_map : gmap string loc;
  _prune : bool;
  __matcher : list (registration (list token_pattern));
  __phrase_matcher : list (registration phrase_doc);
  __regex_matcher : list (registration string);
  __rule_count : N;
  __phrase_matcher_attr : string
}.

(** [MedspacyMatcher.__init__] *)
Definition init (phrase_matcher_attr : string) (prune : bool) : MedspacyMatcher :=
  mkMedspacyMatcher ∅ ∅ prune [] [] [] 0%N phrase_matcher_attr.

(** The state [add] runs in: the heap of objects and the registry [self]. *)
Record world : Type := mkWorld {
  heap : gmap loc pyobj;
  self : MedspacyMatcher
}.

Definition labels_add (c : string) (w : world) : world :=
  let s := self w in
  mkWorld (heap w)
    (mkMedspacyMatcher ({[c]} ∪ _labels s) (_rule_map s) (_prune s)
       (__matcher s) (__phrase_matcher s) (__regex_matcher s)
       (__rule_count s) (__phrase_matcher_attr s)).

Definition rule_map_setitem (rule_id : string) (rule : loc) (w : world) : world :=
  let s := self w in
  mkWorld (heap w)
    (mkMedspacyMatcher (_labels s) (<[rule_id := rule]> (_rule_map s)) (_prune s)
       (__matcher s) (__phrase_matcher s) (__regex_matcher s)
       (__rule_count s) (__phrase_matcher_attr s)).

Definition matcher_add (reg : registration (list token_pattern)) (w : world) : world :=
  let s := self w in
  mkWorld (heap w)
    (mkMedspacyMatcher (_labels s) (_rule_map s) (_prune s)
       (__matcher s ++ [reg]) (__phrase_matcher s) (__regex_matcher s)
       (__rule_count s) (__phrase_matcher_attr s)).

Definition phrase_matcher_add (reg : registration phrase_doc) (w : world) : world :=
  let s := self w in
  mkWorld (heap w)
    (mkMedspacyMatcher (_labels s) (_rule_map s) (_prune s)
       (__matcher s) (__phrase_matcher s ++ [reg]) (__regex_matcher s)
       (__rule_count s) (__phrase_matcher_attr s)).

Definition regex_matcher_add (reg : registration string) (w : world) : world :=
  let s := self w in
  mkWorld (heap w)
    (mkMedspacyMatcher (_labels s) (_rule_map s) (_prune s)
       (__matcher s) (__phrase_matcher s) (__regex_matcher s ++ [reg])
       (__rule_count s) (__phrase_matcher_attr s)).

Definition rule_count_incr (w : world) : world :=
  let s := self w in
  mkWorld (heap w)
    (mkMedspacyMatcher (_labels s) (_rule_map s) (_prune s)
       (__matcher s) (__phrase_matcher s) (__regex_matcher s)
       (__rule_count s + 1)%N (__phrase_matcher_attr s)).

(** [rule._rule_id = rule_id] *)
Definition assign_rule_id (rule : loc) (rule_id : string) (w : world) : world :=
  mkWorld
    (match heap w !! rule with
     | Some (RuleObj r) => <[rule := RuleObj (set_rule_id rule_id r)]> (heap w)
     | _ => heap w
     end)
    (self w).

(** [f"{rule.category}_{self.__rule_count}"] *)
Definition format_rule_id (category : string) (count : N) : string :=
  category +:+ "_" +:+ pretty count.

(** The body of the [for] loop of [add].  A reference always denotes an
    object; one outside the heap is read as an object that is not a
    [BaseRule]. *)
Definition add_rule (rule : loc) : M world unit :=
  obj <- gets (λ w, heap w !! rule) ;;
  match obj with
  | Some (RuleObj r) =>
      modify (labels_add (category r)) ;;
      count <- gets (λ w, __rule_count (self w)) ;;
      let rule_id := format_rule_id (category r) count in
      modify (assign_rule_id rule rule_id) ;;
      modify (rule_map_setitem rule_id rule) ;;
      match pattern r with
      | PatternStr source =>
          modify (regex_matcher_add (rule_id, [source], on_match r))
      | PatternList tokens =>
          modify (matcher_add (rule_id, [tokens], on_match r))
      | PatternOther type_name =>
          raise (ValueError_pattern_type type_name)
      | PatternNone =>
          attr <- gets (λ w, __phrase_matcher_attr (self w)) ;;
          let doc :=
            if String.eqb (lower attr) "lower" then NlpCall (lower (literal r))
            else NlpCall (literal r) in
          modify (phrase_matcher_add (rule_id, [doc], on_match r))
      end ;;
      modify rule_count_incr
  | _ => raise ValueError_not_base_rule
  end.

(** [MedspacyMatcher.add] *)
Definition add (rules : list loc) : M world unit :=
  for_each rules add_rule.

(** *** [MedspacyMatcher.__call__]

    Modelled from the spec: what an engine answers when it is called on a
    document, "a sequence of (id, start, end), deterministic for a fixed
    registered-pattern set and fixed document".  The engines are external;
    their answers are taken as functions of the registrations they hold and
    of the document. *)
Definition engine (P : Type) : Type := list (registration P) → Doc → list Match.

Definition __call__ (run_matcher : engine (list token_pattern))
    (run_phrase_matcher : engine phrase_doc) (run_regex_matcher : engine string)
    (fuel : nat) (self : MedspacyMatcher) (doc : Doc)
    : option (outcome (list Match)) :=
  let matches := run_matcher (__matcher self) doc in
  let matches := matches ++ run_phrase_matcher (__phrase_matcher self) doc in
  let matches := matches ++ run_regex_matcher (__regex_matcher self) doc in
  if _prune self then prune_overlapping_matches fuel matches "longest"
  else Some (Return matches).

End Common.

(** ** The older copy: [medspacy/target_matcher/medspacy_matcher.py] *)

Module TargetMatcher.

(** [_span_overlaps(a, b)] *)
Definition _span_overlaps (a b : Match) : bool :=
  let '(_, a_start, a_end) := a in
  let '(_, b_start, b_end) := b in
  if (a_start >=? b_start) && (a_start <? b_end) then true
  else if (a_end >? b_start) && (a_end <=? b_end) then true
  else false.

Definition overlaps (a b : Match) : bool :=
  if _span_overlaps a b || _span_overlaps b a then true else false.

Fixpoint prune_loop (pruned : list Match) (curr_match : Match)
    (unpruned : list Match) {struct unpruned} : list Match :=
  match unpruned with
  | [] => pruned ++ [curr_match]
  | next_match :: unpruned1 =>
      if overlaps curr_match next_match then
        let longer_span := max_by_span_length curr_match next_match in
        let pruned1 := pruned ++ [longer_span] in
        match unpruned1 with
        | [] => pruned1
        | curr_match' :: unpruned2 => prune_loop pruned1 curr_match' unpruned2
        end
      else prune_loop (pruned ++ [curr_match]) next_match unpruned1
  end.

Fixpoint prune_overlapping_matches (fuel : nat) (matches : list Match)
    (strategy : string) {struct fuel} : option (outcome (list Match)) :=
  if negb (String.eqb strategy "longest") then Some (Raise NotImplementedError)
  else
    let unpruned := sorted matches in
    let num_matches := length matches in
    if (num_matches =? 0)%nat then Some (Return matches)
    else
      match unpruned with
      | [] => Some (Raise IndexError)
      | curr_match :: unpruned0 =>
          let pruned := prune_loop [] curr_match unpruned0 in
          if (length pruned =? num_matches)%nat then Some (Return pruned)
          else
            match fuel with
            | O => None
            | S fuel' => prune_overlapping_matches fuel' pruned "longest"
            end
      end.

(** The registry of the older copy keeps the list [_rules] and numbers a
    rule by its position in that list. *)
Record MedspacyMatcher : Type := mkMedspacyMatcher {
  _rules : list loc;
  labels : gset string;
  _rule_item_mapping : gmap string loc;
  matcher : list (registration (list token_pattern));
  phrase_matcher : list (registration phrase_doc);
  regex_matcher : list (registration string)
}.

Definition init : MedspacyMatcher := mkMedspacyMatcher [] ∅ ∅ [] [] [].

Record world : Type := mkWorld {
  heap : gmap loc pyobj;
  self : MedspacyMatcher
}.

Definition rules_extend (rules : list loc) (w : world) : world :=
  let s := self w in
  mkWorld (heap w)
    (mkMedspacyMatcher (_rules s ++ rules) (labels s) (_rule_item_mapping s)
       (matcher s) (phrase_matcher s) (regex_matcher s)).

Definition labels_add (c : string) (w : world) : world :=
  let s := self w in
  mkWorld (heap w)
    (mkMedspacyMatcher (_rules s) ({[c]} ∪ labels s) (_rule_item_mapping s)
       (matcher s) (phrase_matcher s) (regex_matcher s)).

Definition rule_item_mapping_setitem (rule_id : string) (rule : loc)
    (w : world) : world :=
  let s := self w in
  mkWorld (heap w)
    (mkMedspacyMatcher (_rules s) (labels s)
       (<[rule_id := rule]> (_rule_item_mapping s))
       (matcher s) (phrase_matcher s) (regex_matcher s)).

Definition matcher_add (reg : registration (list token_pattern)) (w : world) : world :=
  let s := self w in
  mkWorld (heap w)
    (mkMedspacyMatcher (_rules s) (labels s) (_rule_item_mapping s)
       (matcher s ++ [reg]) (phrase_matcher s) (regex_matcher s)).

Definition phrase_matcher_add (reg : registration phrase_doc) (w : world) : world :=
  let s := self w in
  mkWorld (heap w)
    (mkMedspacyMatcher (_rules s) (labels s) (_rule_item_mapping s)
       (matcher s) (phrase_matcher s ++ [reg]) (regex_matcher s)).

Definition regex_matcher_add (reg : registration string) (w : world) : world :=
  let s := self w in
  mkWorld (heap w)
    (mkMedspacyMatcher (_rules s) (labels s) (_rule_item_mapping s)
       (matcher s) (phrase_matcher s) (regex_matcher s ++ [reg])).

Definition assign_rule_id (rule : loc) (rule_id : string) (w : world) : world :=
  mkWorld
    (match heap w !! rule with
     | Some (RuleObj r) => <[rule := RuleObj (set_rule_id rule_id r)]> (heap w)
     | _ => heap w
     end)
    (self w).

(** The [for] loop of [add], with its local counter [i].  This copy does
    not test [isinstance]; an object that is not a rule has no [category]
    to read. *)
Fixpoint add_loop (i : N) (rules : list loc) : M world unit :=
  match rules with
  | [] => ret tt
  | rule :: rules' =>
      obj <- gets (λ w, heap w !! rule) ;;
      match obj with
      | Some (RuleObj r) =>
          modify (labels_add (category r)) ;;
          let rule_id := category r +:+ "_" +:+ pretty i in
          modify (assign_rule_id rule rule_id) ;;
          modify (rule_item_mapping_setitem rule_id rule) ;;
          match pattern r with
          | PatternStr source =>
              modify (regex_matcher_add (rule_id, [source], on_match r))
          | PatternList tokens =>
              modify (matcher_add (rule_id, [tokens], on_match r))
          | PatternOther type_name =>
              raise (ValueError_pattern_type type_name)
          | PatternNone =>
              modify (phrase_matcher_add
                        (rule_id, [MakeDocCall (lower (literal r))], on_match r))
          end ;;
          add_loop (i + 1)%N rules'
      | _ => raise AttributeError
      end
  end.

Definition add (rules : list loc) : M world unit :=
  i <- gets (λ w, N.of_nat (length (_rules (self w)))) ;;
  modify (rules_extend rules) ;;
  add_loop i rules.

(** [MedspacyMatcher.__call__] of the older copy, which always prunes. *)
Definition __call__ (run_matcher : Common.engine (list token_pattern))
    (run_phrase_matcher : Common.engine phrase_doc)
    (run_regex_matcher : Common.engine string)
    (fuel : nat) (self : MedspacyMatcher) (doc : Common.Doc)
    : option (outcome (list Match)) :=
  let matches := run_matcher (matcher self) doc in
  let matches := matches ++ run_phrase_matcher (phrase_matcher self) doc in
  let matches := matches ++ run_regex_matcher (regex_matcher self) doc in
  prune_overlapping_matches fuel matches "longest".

Section MatchesToSpans.

(** The calls into spaCy, as for the newer copy. *)
Variable strings_getitem : Common.Doc → Z → outcome string.
Variable new_Span : Common.Doc → Z → Z → option string → outcome Common.Span.

(** [matches_to_spans] of the older copy. *)
Fixpoint matches_to_spans_loop (doc : Common.Doc) (set_label : bool)
    (spans : list Common.Span) (matches : list Match)
    : outcome (list Common.Span) :=
  match matches with
  | [] => Return spans
  | (rule_id, start, end_) :: matches' =>
      let label :=
        if set_label then
          match strings_getitem doc rule_id with
          | Return s => Return (Some s)
          | Raise e => Raise e
          end
        else Return None in
      match label with
      | Raise e => Raise e
      | Return label =>
          match new_Span doc start end_ label with
          | Raise e => Raise e
          | Return span =>
              matches_to_spans_loop doc set_label (spans ++ [span]) matches'
          end
      end
  end.

Definition matches_to_spans (doc : Common.Doc) (matches : list Match)
    (set_label : bool) : outcome (list Common.Span) :=
  matches_to_spans_loop doc set_label [] matches.

End MatchesToSpans.

End TargetMatcher.

Import Common.

(** ** Vocabulary of the statements *)

(** One pass of the pruner: sort, then sweep. *)
Definition prune_pass (matches : list Match) : list Match :=
  match sorted matches with
  | [] => []
  | curr_match :: unpruned => prune_loop [] curr_match unpruned
  end.

(** No match overlaps the one that follows it. *)
Fixpoint no_adjacent_overlap (l : list Match) : Prop :=
  match l with
  | [] => True
  | a :: l' =>
      match l' with
      | [] => True
      | b :: _ => overlaps a b = false /\ no_adjacent_overlap l'
      end
  end.

(** No two matches at different positions overlap. *)
Definition pairwise_disjoint (l : list Match) : Prop :=
  ∀ i j a b, i ≠ j → l !! i = Some a → l !! j = Some b → overlaps a b = false.

(** Ascending by [(start, end)]. *)
Definition key_le (a b : Match) : Prop :=
  m_start a < m_start b \/ (m_start a = m_start b /\ m_end a <= m_end b).

Definition key_sorted (l : list Match) : Prop := StronglySorted key_le l.

(** No match overlaps a later one (the overlap test is symmetric, so this
    is [pairwise_disjoint] in inductive form). *)
Definition disjoint_list (l : list Match) : Prop :=
  StronglySorted (λ a b, overlaps a b = false) l.

(** The number of sweeps [prune_overlapping_matches] performs under the
    strategy ["longest"]: the same recursion, counting instead of pruning. *)
Fixpoint prune_passes (fuel : nat) (matches : list Match) : option nat :=
  if (length matches =? 0)%nat then Some 0%nat
  else if (length (prune_pass matches) =? length matches)%nat then Some 1%nat
  else match fuel with
       | O => None
       | S fuel' => S <$> prune_passes fuel' (prune_pass matches)
       end.

(** One iteration of the [while True] loop that does not leave it, on the
    variables [curr_match] and [unpruned]: after a collision the loop goes
    on with the element after the candidate, otherwise with the candidate. *)
Inductive loop_iter : Match * list Match → Match * list Match → Prop :=
  | iter_collision c n c' rest :
      overlaps c n = true → loop_iter (c, n :: c' :: rest) (c', rest)
  | iter_advance c n rest :
      overlaps c n = false → loop_iter (c, n :: rest) (n, rest).

(** A match is materialised as [span] with [label]: the lookup of its id
    returns [label] and the [Span] call over its range with that label
    returns [span]. *)
Definition materialised (strings_getitem : Doc → Z → outcome string)
    (new_Span : Doc → Z → Z → option string → outcome Span)
    (doc : Doc) (m : Match) (label : string) (span : Span) : Prop :=
  strings_getitem doc (m_id m) = Return label /\
  new_Span doc (m_start m) (m_end m) (Some label) = Return span.

(** What [matches_to_spans] does for one match: with [set_label] it looks
    the id up and makes the span with the string found, without it makes
    the span with the label [None]; the error of the lookup or of the
    [Span] call is the error of the step. *)
Definition span_for (strings_getitem : Doc → Z → outcome string)
    (new_Span : Doc → Z → Z → option string → outcome Span)
    (doc : Doc) (set_label : bool) (m : Match) : outcome Span :=
  match
    (if set_label then
       match strings_getitem doc (m_id m) with
       | Return s => Return (Some s)
       | Raise e => Raise e
       end
     else Return None)
  with
  | Raise e => Raise e
  | Return label => new_Span doc (m_start m) (m_end m) label
  end.

(** The label the design document expects for a match: the category of the
    rule that owns the match's id, the owner being the rule the registry
    holds under the key the id stands for in the document's vocabulary. *)
Definition owner_category (strings_getitem : Doc → Z → outcome string)
    (w : world) (doc : Doc) (rule_id : Z) : option string :=
  match strings_getitem doc rule_id with
  | Return key =>
      match _rule_map (self w) !! key with
      | Some rule =>
          match heap w !! rule with
          | Some (RuleObj r) => Some (category r)
          | _ => None
          end
      | None => None
      end
  | Raise _ => None
  end.

(** spaCy's side of the examples.  The string store answers for an id that
    is no unsigned 64-bit number with [OverflowError], for [0] with the
    empty string, for an id below the length of the library's table of
    built-in symbols with that symbol, for any other id with the string
    interned under it and with [KeyError] if there is none.  [Span] takes
    [start] and [end] as C integers ([OverflowError] otherwise), raises
    [IndexError] unless [0 <= start <= end <= len(doc)], and then raises
    [TypeError] for the label [None]. *)
Definition in_uint64 (z : Z) : bool := (0 <=? z) && (z <? 2 ^ 64).

Definition in_c_int (z : Z) : bool := (- 2 ^ 31 <=? z) && (z <? 2 ^ 31).

Definition spacy_strings_getitem (symbols : list string) (doc : Doc)
    (id : Z) : outcome string :=
  if negb (in_uint64 id) then Raise OverflowError
  else if id =? 0 then Return EmptyString
  else if id <? Z.of_nat (length symbols)
  then Return (nth (Z.to_nat id) symbols EmptyString)
  else
    match doc_vocab_strings doc !! id with
    | Some s => Return s
    | None => Raise (KeyError id)
    end.

Definition spacy_Span (doc : Doc) (start end_ : Z) (label : option string)
    : outcome Span :=
  if negb (in_c_int start && in_c_int end_) then Raise OverflowError
  else if negb ((0 <=? start) && (start <=? end_)
                && (end_ <=? Z.of_nat (length (doc_tokens doc))))
  then Raise IndexError
  else
    match label with
    | None => Raise TypeError
    | Some s => Return (mkSpan doc start end_ (Some s))
    end.

(** A small running example: a registry created with the defaults, a rule
    of category PROBLEM with a literal, one of the same category whose
    pattern is an integer, and a document of three tokens whose vocabulary
    has interned the key PROBLEM_0, under the id the string store gives
    that string (its 64-bit MurmurHash with seed 1).  The key PROBLEM_1,
    which the vocabulary does not hold, has the id 11301928873487637553.
    Of the table of built-in symbols the examples use the first entry,
    the empty string. *)
Definition literal_rule : BaseRule :=
  mkBaseRule "Chest Pain" "PROBLEM" PatternNone None None.

Definition int_pattern_rule : BaseRule :=
  mkBaseRule "fever" "PROBLEM" (PatternOther "int") None None.

Definition example_heap : gmap loc pyobj :=
  <[1%positive := RuleObj int_pattern_rule]>
    (<[2%positive := RuleObj literal_rule]> ∅).

Definition example_world : world :=
  mkWorld example_heap (init "LOWER" true).

Definition example_doc : Doc :=
  mkDoc ["chest"; "pain"; "today"] (<[1457744817548311358 := "PROBLEM_0"]> ∅).

Definition example_strings_getitem : Doc → Z → outcome string :=
  spacy_strings_getitem [EmptyString].

(** An engine that answers with one match for every registration it
    holds: the [i]-th registration gives the match [(i, i, i + 1)]. *)
Definition one_per_registration {P : Type} : engine P :=
  λ regs _, imap (λ i _, (Z.of_nat i, Z.of_nat i, Z.of_nat (S i))) regs.

(** The same two rules for the older copy of the registry. *)
Definition example_world_old : TargetMatcher.world :=
  TargetMatcher.mkWorld example_heap TargetMatcher.init.

(** The id [add] has written on the rule object at [rule]. *)
Definition rule_id_of (h : gmap loc pyobj) (rule : loc) : option string :=
  match h !! rule with
  | Some (RuleObj r) => _rule_id r
  | _ => None
  end.

Fixpoint has_underscore (s : string) : bool :=
  match s with
  | EmptyString => false
  | String a s' => Ascii.eqb a "_" || has_underscore s'
  end.

(** The registry's bookkeeping is in step: every key of the rule map was
    formed from a sequence number below the counter. *)
Definition ids_below_count (s : MedspacyMatcher) : Prop :=
  ∀ key, is_Some (_rule_map s !! key) →
         ∃ c n, key = format_rule_id c n /\ (n < __rule_count s)%N.

(** The worlds reached from a new registry by calls of [add] that return,
    the caller being free to create and change objects between the calls. *)
Inductive registered : world → Prop :=
  | registered_init h attr prune :
      registered (mkWorld h (init attr prune))
  | registered_add w rules w' :
      registered w → add rules w = (Return tt, w') → registered w'
  | registered_heap w h :
      registered w → registered (mkWorld h (self w)).

(** The same match under another id, and the same match moved by [k]
    tokens. *)
Definition relabel (f : Z → Z) (m : Match) : Match :=
  (f (m_id m), m_start m, m_end m).

Definition shift (k : Z) (m : Match) : Match :=
  (m_id m, m_start m + k, m_end m + k).

(** [m] wins every collision with [x]: whenever the two overlap, [x] spans
    fewer tokens. *)
Definition dominates (m x : Match) : Prop :=
  overlaps m x = true → span_length x < span_length m.

(** The token [t] lies in the range of [m]. *)
Definition covers (m : Match) (t : Z) : Prop := m_start m <= t < m_end m.

(** The registrations the three engines hold, counted. *)
Definition registrations (s : MedspacyMatcher) : nat :=
  (length (__matcher s) + length (__phrase_matcher s)
   + length (__regex_matcher s))%nat.

(** The worlds reached from a new registry by calls of [add], whether they
    return or raise, the caller being free to create and change objects
    between the calls. *)
Inductive reachable : world → Prop :=
  | reachable_init h attr prune :
      reachable (mkWorld h (init attr prune))
  | reachable_add w rules :
      reachable w → reachable (add rules w).2
  | reachable_heap w h :
      reachable w → reachable (mkWorld h (self w)).



(** A change [g] of every match, applied to what the pruner returned. *)
Definition on_returned (g : Match → Match)
    (r : option (outcome (list Match))) : option (outcome (list Match)) :=
  match r with
  | Some (Return out) => Some (Return (map g out))
  | _ => r
  end.

(** The registry [s'] holds everything the registry [s] holds: categories,
    keys of the rule map and registrations are only added, the counter only
    advances, and the configuration is the same. *)
Definition grows (s s' : MedspacyMatcher) : Prop :=
  _labels s ⊆ _labels s' /\
  dom (_rule_map s) ⊆ dom (_rule_map s') /\
  __matcher s `prefix_of` __matcher s' /\
  __phrase_matcher s `prefix_of` __phrase_matcher s' /\
  __regex_matcher s `prefix_of` __regex_matcher s' /\
  (__rule_count s ≤ __rule_count s')%N /\
  _prune s' = _prune s /\
  __phrase_matcher_attr s' = __phrase_matcher_attr s.

(** Engines for the examples: each answers with fixed matches, whatever
    it holds and whatever the document. *)
Definition example_matcher : engine (list token_pattern) :=
  λ _ _, [(1, 2, 6)].

Definition example_phrase_matcher : engine phrase_doc :=
  λ _ _, [(2, 0, 3)].

Definition example_regex_matcher : engine string :=
  λ _ _, [(3, 6, 9)].





(** * Properties *)

(** ** The overlap test *)

Lemma _match_overlaps_true (a b : Match) :
  _match_overlaps a b = true ↔
  (m_start b <= m_start a < m_end b) \/ (m_start b < m_end a <= m_end b).
Proof.
  destruct a as [[ra sa] ea], b as [[rb sb] eb].
  unfold _match_overlaps, m_start, m_end; simpl.
  destruct (Z.geb_spec sa sb), (Z.ltb_spec sa eb),
    (Z.gtb_spec ea sb), (Z.leb_spec ea eb); simpl; split; intros; try lia; auto.
Qed.

Lemma overlaps_true (a b : Match) :
  overlaps a b = true ↔ _match_overlaps a b = true \/ _match_overlaps b a = true.
Proof.
  unfold overlaps.
  destruct (_match_overlaps a b), (_match_overlaps b a); simpl; intuition congruence.
Qed.

Lemma overlaps_false (a b : Match) :
  overlaps a b = false ↔
  ¬ (m_start b <= m_start a < m_end b) /\ ¬ (m_start b < m_end a <= m_end b) /\
  ¬ (m_start a <= m_start b < m_end a) /\ ¬ (m_start a < m_end b <= m_end a).
Proof.
  rewrite <- not_true_iff_false, overlaps_true, !_match_overlaps_true. tauto.
Qed.

Lemma overlaps_sym (a b : Match) : overlaps a b = overlaps b a.
Proof.
  unfold overlaps. by rewrite orb_comm.
Qed.

(** ** The sweep *)

(** The loop consumes one or two elements per iteration, so facts about it
    are proved for a list and its tail together. *)
Lemma list_pair_ind {A} (P : list A → Prop) :
  P [] → (∀ x l, P l → P (tail l) → P (x :: l)) → ∀ l, P l.
Proof.
  intros Hnil Hcons l.
  cut (P l /\ P (tail l)); [tauto |].
  induction l as [| x l [IH1 IH2]]; simpl; auto.
Qed.

Lemma prune_loop_app (pruned : list Match) (c : Match) (l : list Match) :
  prune_loop pruned c l = pruned ++ prune_loop [] c l.
Proof.
  revert pruned c. induction l as [| n rest IH1 IH2] using list_pair_ind;
    intros pruned c; simpl; [done |].
  destruct (overlaps c n).
  - destruct rest as [| c' rest']; simpl; [done |].
    simpl in IH2. rewrite (IH2 (pruned ++ _)), (IH2 [_]).
    by rewrite <- app_assoc.
  - rewrite (IH1 (pruned ++ _)), (IH1 [_]). by rewrite <- app_assoc.
Qed.

Lemma prune_loop_step (c n : Match) (rest : list Match) :
  prune_loop [] c (n :: rest) =
  if overlaps c n then
    max_by_span_length c n ::
      match rest with [] => [] | c' :: rest' => prune_loop [] c' rest' end
  else c :: prune_loop [] n rest.
Proof.
  simpl. destruct (overlaps c n).
  - destruct rest; [done |]. by rewrite prune_loop_app.
  - by rewrite prune_loop_app.
Qed.

Lemma prune_loop_length (c : Match) (l : list Match) :
  (1 ≤ length (prune_loop [] c l) ≤ S (length l))%nat.
Proof.
  revert c. induction l as [| n rest IH1 IH2] using list_pair_ind; intros c.
  - simpl. lia.
  - rewrite prune_loop_step. destruct (overlaps c n).
    + destruct rest as [| c' rest']; simpl; [lia |].
      simpl in IH2. specialize (IH2 c'). lia.
    + simpl. specialize (IH1 n). lia.
Qed.

(** A sweep that drops nothing found no collision and copied its input. *)
Lemma prune_loop_full (c : Match) (l : list Match) :
  length (prune_loop [] c l) = S (length l) →
  no_adjacent_overlap (c :: l) /\ prune_loop [] c l = c :: l.
Proof.
  revert c. induction l as [| n rest IH]; intros c.
  - simpl. auto.
  - rewrite prune_loop_step. destruct (overlaps c n) eqn:Hov.
    + destruct rest as [| c' rest']; simpl; [lia |].
      pose proof (prune_loop_length c' rest'). lia.
    + simpl. intros Hlen. destruct (IH n) as [Hadj Heq]; [lia |].
      split; [| by rewrite Heq]. split; [done |]. exact Hadj.
Qed.

Lemma prune_loop_id (c : Match) (l : list Match) :
  no_adjacent_overlap (c :: l) → prune_loop [] c l = c :: l.
Proof.
  revert c. induction l as [| n rest IH]; intros c; [done |].
  intros [Hov Hadj]. rewrite prune_loop_step, Hov. by rewrite IH.
Qed.

Lemma max_by_span_length_cases (c n : Match) :
  max_by_span_length c n = c \/ max_by_span_length c n = n.
Proof.
  unfold max_by_span_length. destruct (_ <? _); auto.
Qed.

(** The sweep only drops elements: its output is a sublist of its input. *)
Lemma prune_loop_sublist (c : Match) (l : list Match) :
  prune_loop [] c l `sublist_of` c :: l.
Proof.
  revert c. induction l as [| n rest IH1 IH2] using list_pair_ind; intros c.
  - done.
  - rewrite prune_loop_step. destruct (overlaps c n).
    + assert (Hrest : match rest with
                      | [] => []
                      | c' :: rest' => prune_loop [] c' rest'
                      end `sublist_of` rest).
      { destruct rest as [| c' rest']; [done |]. apply IH2. }
      destruct (max_by_span_length_cases c n) as [-> | ->].
      * apply sublist_skip. by apply sublist_cons.
      * by apply sublist_cons, sublist_skip.
    + apply sublist_skip, IH1.
Qed.

(** ** The sort *)

Lemma key_leb_le (a b : Match) :
  key_leb (sort_key a) (sort_key b) = true ↔ key_le a b.
Proof.
  unfold key_leb, key_le, sort_key; simpl.
  destruct (Z.ltb_spec (m_start a) (m_start b)),
    (Z.eqb_spec (m_start a) (m_start b)),
    (Z.leb_spec (m_end a) (m_end b)); simpl; split; intros; try lia; auto.
Qed.

Lemma key_leb_false (a b : Match) :
  key_leb (sort_key a) (sort_key b) = false → key_le b a.
Proof.
  intros H. destruct (decide (key_le a b)) as [Hle | Hn].
  - apply key_leb_le in Hle. congruence.
  - unfold key_le in *. lia.
Qed.

Lemma key_le_trans (a b c : Match) : key_le a b → key_le b c → key_le a c.
Proof. unfold key_le. lia. Qed.

Lemma insert_by_key_perm (x : Match) (l : list Match) :
  insert_by_key x l ≡ₚ x :: l.
Proof.
  induction l as [| y l IH]; simpl; [done |].
  destruct (key_leb _ _); [done |]. by rewrite IH, Permutation_swap.
Qed.

Lemma sorted_perm (l : list Match) : sorted l ≡ₚ l.
Proof.
  induction l as [| x l IH]; simpl; [done |].
  by rewrite insert_by_key_perm, IH.
Qed.

Lemma sorted_length (l : list Match) : length (sorted l) = length l.
Proof. by rewrite sorted_perm. Qed.

Lemma insert_by_key_sorted (x : Match) (l : list Match) :
  key_sorted l → key_sorted (insert_by_key x l).
Proof.
  unfold key_sorted. induction 1 as [| y l Hs IH Hy]; simpl.
  - repeat constructor.
  - destruct (key_leb _ _) eqn:Hk.
    + apply key_leb_le in Hk. constructor; [by constructor |].
      constructor; [done |].
      eapply Forall_impl; [exact Hy |]. intros z Hz. by eapply key_le_trans.
    + apply key_leb_false in Hk. constructor; [done |].
      rewrite insert_by_key_perm. by constructor.
Qed.

Lemma sorted_key_sorted (l : list Match) : key_sorted (sorted l).
Proof.
  induction l as [| x l IH]; simpl; [constructor |].
  by apply insert_by_key_sorted.
Qed.

(** Sorting a list that is in order already changes nothing. *)
Lemma sorted_id (l : list Match) : key_sorted l → sorted l = l.
Proof.
  unfold key_sorted. induction 1 as [| x l Hs IH Hx]; simpl; [done |].
  rewrite IH. destruct l as [| y l']; simpl; [done |].
  apply Forall_cons in Hx as [Hxy _]. apply key_leb_le in Hxy. by rewrite Hxy.
Qed.

(** The sort is stable: matches with the same key keep their order. *)
Lemma insert_by_key_filter (k : Z * Z) (x : Match) (l : list Match) :
  key_sorted l →
  filter (λ y, sort_key y = k) (insert_by_key x l)
  = filter (λ y, sort_key y = k) (x :: l).
Proof.
  unfold key_sorted. induction 1 as [| y l Hs IH Hy]; simpl; [done |].
  destruct (key_leb _ _) eqn:Hk; [done |].
  rewrite !filter_cons in *. rewrite IH.
  destruct (decide (sort_key x = k)) as [Hx | Hx],
    (decide (sort_key y = k)) as [Hy' | Hy']; try done.
  rewrite <- Hy' in Hx. unfold sort_key in Hx.
  assert (key_le x y) as Hle%key_leb_le by (unfold key_le; naive_solver lia).
  congruence.
Qed.

Lemma sorted_stable (k : Z * Z) (l : list Match) :
  filter (λ y, sort_key y = k) (sorted l) = filter (λ y, sort_key y = k) l.
Proof.
  induction l as [| x l IH]; simpl; [done |].
  rewrite insert_by_key_filter by apply sorted_key_sorted.
  by rewrite !filter_cons, IH.
Qed.

(** ** One pass *)

Lemma prune_pass_length (m : list Match) :
  m ≠ [] → (1 ≤ length (prune_pass m) ≤ length m)%nat.
Proof.
  intros Hm. unfold prune_pass. pose proof (sorted_length m) as Hlen.
  destruct (sorted m) as [| c l].
  - destruct m; simpl in *; [done | lia].
  - pose proof (prune_loop_length c l). simpl in Hlen. lia.
Qed.

Lemma prune_pass_length_le (m : list Match) :
  (length (prune_pass m) ≤ length m)%nat.
Proof.
  destruct m as [| x m]; [simpl; lia |]. by apply prune_pass_length.
Qed.

Lemma prune_pass_submseteq (m : list Match) : prune_pass m ⊆+ m.
Proof.
  unfold prune_pass. pose proof (sorted_perm m) as Hp.
  destruct (sorted m) as [| c l]; [apply submseteq_nil_l |].
  rewrite <- Hp. apply sublist_submseteq, prune_loop_sublist.
Qed.

Lemma prune_pass_full (m : list Match) :
  length (prune_pass m) = length m →
  prune_pass m = sorted m /\ no_adjacent_overlap (sorted m).
Proof.
  unfold prune_pass. rewrite <- (sorted_length m).
  destruct (sorted m) as [| c l]; [done |].
  intros H. apply prune_loop_full in H. tauto.
Qed.

Lemma prune_pass_id (m : list Match) :
  no_adjacent_overlap (sorted m) → prune_pass m = sorted m.
Proof.
  unfold prune_pass. destruct (sorted m) as [| c l]; [done |].
  apply prune_loop_id.
Qed.

(** ** The recursion *)

(** [prune_overlapping_matches] under the strategy ["longest"], one call
    unfolded. *)
Lemma prune_longest_unfold (fuel : nat) (m : list Match) :
  prune_overlapping_matches fuel m "longest" =
  if (length m =? 0)%nat then Some (Return m)
  else if (length (prune_pass m) =? length m)%nat then Some (Return (prune_pass m))
  else match fuel with
       | O => None
       | S fuel' => prune_overlapping_matches fuel' (prune_pass m) "longest"
       end.
Proof.
  unfold prune_pass. pose proof (sorted_length m) as Hlen.
  destruct fuel; simpl;
    (destruct (length m =? 0)%nat eqn:H0; [done |]);
    apply Nat.eqb_neq in H0;
    (destruct (sorted m) as [| c l]; [simpl in Hlen; lia | done]).
Qed.

(** A budget of [length matches - 1] recursive calls is enough, and the
    call returns (it does not raise). *)
Lemma prune_longest_returns (fuel : nat) (m : list Match) :
  (length m ≤ S fuel)%nat →
  ∃ out, prune_overlapping_matches fuel m "longest" = Some (Return out).
Proof.
  revert m. induction fuel as [| fuel IH]; intros m Hlen;
    rewrite prune_longest_unfold.
  - destruct (Nat.eqb_spec (length m) 0); [eauto |].
    destruct (Nat.eqb_spec (length (prune_pass m)) (length m)); [eauto |].
    assert (m ≠ []) as Hm%prune_pass_length by (by intros ->). lia.
  - destruct (Nat.eqb_spec (length m) 0); [eauto |].
    destruct (Nat.eqb_spec (length (prune_pass m)) (length m)); [eauto |].
    apply IH. pose proof (prune_pass_length_le m). lia.
Qed.

(** More budget does not change the result. *)
Lemma prune_longest_fuel_mono (fuel fuel' : nat) (m : list Match)
    (r : outcome (list Match)) :
  (fuel ≤ fuel')%nat →
  prune_overlapping_matches fuel m "longest" = Some r →
  prune_overlapping_matches fuel' m "longest" = Some r.
Proof.
  revert fuel' m. induction fuel as [| fuel IH]; intros fuel' m Hle;
    rewrite !(prune_longest_unfold _ m);
    destruct (length m =? 0)%nat; try done;
    destruct (length (prune_pass m) =? length m)%nat; try done.
  destruct fuel' as [| fuel']; [lia |]. apply IH. lia.
Qed.

(** What a returned list looks like: the input itself when that is empty,
    otherwise the sorted input of the last pass, in which no match overlaps
    its successor; in both cases a sub-multiset of the input. *)
Lemma prune_longest_result (fuel : nat) (m out : list Match) :
  prune_overlapping_matches fuel m "longest" = Some (Return out) →
  out ⊆+ m /\ key_sorted out /\ no_adjacent_overlap out.
Proof.
  revert m. induction fuel as [| fuel IH]; intros m;
    rewrite prune_longest_unfold.
  all: destruct (Nat.eqb_spec (length m) 0) as [H0 | H0];
    [ intros [= <-]; destruct m; [| done];
      split; [done |]; split; [constructor | done] |].
  all: destruct (Nat.eqb_spec (length (prune_pass m)) (length m)) as [Hf | Hf];
    [ intros [= <-]; split; [apply prune_pass_submseteq |];
      apply prune_pass_full in Hf as [-> Hadj];
      split; [apply sorted_key_sorted | done] |].
  - done.
  - intros H. apply IH in H as (Hsub & Hs & Hadj).
    split; [| done]. etrans; [exact Hsub | apply prune_pass_submseteq].
Qed.

(** ** From adjacent to pairwise *)

Lemma StronglySorted_lookup_lt {A} (R : A → A → Prop) (l : list A)
    (i j : nat) (a b : A) :
  StronglySorted R l → (i < j)%nat → l !! i = Some a → l !! j = Some b → R a b.
Proof.
  intros Hs. revert i j. induction Hs as [| x l Hs IH Hx]; intros i j Hij Hi Hj.
  - done.
  - destruct j as [| j]; [lia |]. destruct i as [| i]; simpl in *.
    + injection Hi as <-. rewrite Forall_forall in Hx.
      apply Hx. by eapply list_elem_of_lookup_2.
    + eapply IH; [| done..]. lia.
Qed.

Lemma disjoint_list_pairwise (l : list Match) :
  disjoint_list l ↔ pairwise_disjoint l.
Proof.
  unfold disjoint_list, pairwise_disjoint. split.
  - intros Hs i j a b Hij Hi Hj.
    destruct (decide (i < j)%nat).
    + by apply (StronglySorted_lookup_lt
                  (λ a b, overlaps a b = false) l i j a b).
    + rewrite overlaps_sym.
      apply (StronglySorted_lookup_lt
               (λ a b, overlaps a b = false) l j i b a); [done | lia | done..].
  - induction l as [| x l IH]; intros H; constructor.
    + apply IH. intros i j a b Hij Hi Hj. by apply (H (S i) (S j)); [lia |..].
    + apply Forall_forall. intros b [j Hj]%list_elem_of_lookup_1.
      by apply (H 0%nat (S j)).
Qed.

Lemma disjoint_list_perm (l l' : list Match) :
  l ≡ₚ l' → disjoint_list l → disjoint_list l'.
Proof.
  unfold disjoint_list.
  induction 1 as [| x l l' Hp IH | x y l | l l' l'' _ IH1 _ IH2]; intros Hd.
  - done.
  - apply StronglySorted_cons in Hd as [Hx Hd]. constructor; [by apply IH |].
    by rewrite <- Hp.
  - apply StronglySorted_cons in Hd as [Hy Hd].
    apply StronglySorted_cons in Hd as [Hx Hd].
    apply Forall_cons in Hy as [Hyx Hy].
    repeat constructor; try done. by rewrite overlaps_sym.
  - auto.
Qed.

Lemma disjoint_list_adjacent (l : list Match) :
  disjoint_list l → no_adjacent_overlap l.
Proof.
  unfold disjoint_list. induction 1 as [| x l Hs IH Hx]; [done |].
  destruct l as [| y l]; [done |]. apply Forall_cons in Hx as [Hxy _].
  by split.
Qed.

(** Along the sorted order, not overlapping carries over from neighbours
    to matches further apart. *)
Lemma overlaps_false_trans (a b c : Match) :
  range_ordered a → range_ordered b → range_ordered c →
  key_le a b → key_le b c →
  overlaps a b = false → overlaps b c = false → overlaps a c = false.
Proof.
  unfold range_ordered, key_le. rewrite !overlaps_false. lia.
Qed.

(** In a sorted list of matches, if no match overlaps its successor then
    no match overlaps any later one. *)
Lemma sorted_adjacent_disjoint (l : list Match) :
  Forall range_ordered l → key_sorted l → no_adjacent_overlap l →
  disjoint_list l.
Proof.
  unfold key_sorted, disjoint_list.
  induction l as [| a l IH]; intros Hwf Hs Hadj; [constructor |].
  apply Forall_cons in Hwf as [Ha Hwf].
  apply StronglySorted_cons in Hs as [Hal Hs].
  destruct l as [| b l].
  - repeat constructor.
  - destruct Hadj as [Hab Hadj]. specialize (IH Hwf Hs Hadj).
    constructor; [done |]. constructor; [done |].
    apply Forall_cons in Hal as [Hkab _].
    apply Forall_cons in Hwf as [Hb Hwf].
    apply StronglySorted_cons in IH as [Hbl _].
    apply StronglySorted_cons in Hs as [Hkbl _].
    rewrite Forall_forall in *. intros c Hc.
    apply (overlaps_false_trans a b c); auto.
Qed.

(** ** The pruner *)

(** C1, no-overlap postcondition.  For every list of matches (triples
    whose end is not before their start, as the data model has them) the
    pruner returns, and in what it returns no two matches at different
    positions satisfy the overlap test: neither the start nor the end of
    one falls within the range of the other. *)
Theorem prune_no_overlap (fuel : nat) (matches : list Match) :
  Forall range_ordered matches →
  (length matches ≤ S fuel)%nat →
  ∃ out,
    prune_overlapping_matches fuel matches "longest" = Some (Return out) /\
    ∀ i j a b, i ≠ j → out !! i = Some a → out !! j = Some b →
      overlaps a b = false /\
      ¬ (m_start b <= m_start a < m_end b) /\
      ¬ (m_start b < m_end a <= m_end b).
Proof.
  intros Hwf Hlen.
  destruct (prune_longest_returns fuel matches Hlen) as [out Hout].
  exists out. split; [done |].
  destruct (prune_longest_result _ _ _ Hout) as (Hsub & Hs & Hadj).
  assert (Forall range_ordered out) as Hwf'.
  { rewrite Forall_forall in *. intros x Hx.
    apply Hwf. by eapply elem_of_submseteq. }
  assert (pairwise_disjoint out) as Hd.
  { by apply disjoint_list_pairwise, sorted_adjacent_disjoint. }
  intros i j a b Hij Hi Hj. specialize (Hd i j a b Hij Hi Hj).
  split; [done |]. apply overlaps_false in Hd. tauto.
Qed.

Lemma prune_no_overlap_witness :
  ∃ out,
    prune_overlapping_matches 3 [(1, 0, 3); (2, 2, 6); (3, 5, 9); (4, 9, 12)]
      "longest" = Some (Return out) /\
    ∀ i j a b, i ≠ j → out !! i = Some a → out !! j = Some b →
      overlaps a b = false /\
      ¬ (m_start b <= m_start a < m_end b) /\
      ¬ (m_start b < m_end a <= m_end b).
Proof.
  apply (prune_no_overlap 3 [(1, 0, 3); (2, 2, 6); (3, 5, 9); (4, 9, 12)]).
  - repeat constructor; unfold range_ordered, m_start, m_end; simpl; lia.
  - simpl. lia.
Defined.

(** The hypothesis of C1 is needed: triples whose end precedes their start
    are not matches, and the pruner can leave such triples overlapping. *)
Example prune_ill_formed :
  prune_overlapping_matches 0 [(1, 0, 10); (2, 10, 0); (3, 10, 5)] "longest"
  = Some (Return [(1, 0, 10); (2, 10, 0); (3, 10, 5)])
  /\ overlaps (1, 0, 10) (3, 10, 5) = true.
Proof. split; reflexivity. Qed.

Lemma prune_passes_spec (fuel : nat) (m : list Match) :
  (length m ≤ S fuel)%nat →
  ∃ n, prune_passes fuel m = Some n /\ (n ≤ length m)%nat.
Proof.
  revert m. induction fuel as [| fuel IH]; intros m Hlen; simpl.
  - destruct (Nat.eqb_spec (length m) 0); [exists 0%nat; split; [done | lia] |].
    destruct (Nat.eqb_spec (length (prune_pass m)) (length m));
      [exists 1%nat; split; [done | lia] |].
    assert (m ≠ []) as Hm%prune_pass_length by (by intros ->). lia.
  - destruct (Nat.eqb_spec (length m) 0); [exists 0%nat; split; [done | lia] |].
    destruct (Nat.eqb_spec (length (prune_pass m)) (length m));
      [exists 1%nat; split; [done | lia] |].
    pose proof (prune_pass_length_le m).
    destruct (IH (prune_pass m)) as (k & -> & Hk); [lia |].
    exists (S k). split; [done | lia].
Qed.

(** The pass counter spends the budget exactly as the pruner does. *)
Lemma prune_passes_budget (fuel : nat) (m : list Match) :
  is_Some (prune_passes fuel m) ↔
  is_Some (prune_overlapping_matches fuel m "longest").
Proof.
  revert m. induction fuel as [| fuel IH]; intros m;
    rewrite prune_longest_unfold; cbn [prune_passes];
    (destruct (length m =? 0)%nat; [split; intros _; by eexists |]);
    (destruct (length (prune_pass m) =? length m)%nat;
     [split; intros _; by eexists |]).
  - split; intros [? ?]; done.
  - rewrite fmap_is_Some. apply IH.
Qed.

(** C2, termination.  The pruner calls itself only on the output of a
    sweep that is strictly shorter than the list the call received; so it
    returns within a budget of [length matches - 1] recursive calls, after
    at most [length matches] sweeps. *)
Theorem prune_terminates (fuel : nat) (matches : list Match) :
  (length matches ≤ S fuel)%nat →
  (∀ fuel',
     prune_overlapping_matches (S fuel') matches "longest" =
     if (length matches =? 0)%nat then Some (Return matches)
     else if (length (prune_pass matches) <? length matches)%nat
          then prune_overlapping_matches fuel' (prune_pass matches) "longest"
          else Some (Return (prune_pass matches))) /\
  ∃ out n,
    prune_overlapping_matches fuel matches "longest" = Some (Return out) /\
    prune_passes fuel matches = Some n /\ (n ≤ length matches)%nat.
Proof.
  intros Hlen. split.
  - intros fuel'. rewrite (prune_longest_unfold (S fuel')).
    destruct (length matches =? 0)%nat; [done |].
    pose proof (prune_pass_length_le matches).
    destruct (Nat.eqb_spec (length (prune_pass matches)) (length matches)),
      (Nat.ltb_spec (length (prune_pass matches)) (length matches));
      done || lia.
  - destruct (prune_longest_returns fuel matches Hlen) as [out Hout].
    destruct (prune_passes_spec fuel matches Hlen) as (n & Hn & Hle).
    eauto.
Qed.

Lemma prune_terminates_witness :
  ∃ out n,
    prune_overlapping_matches 2 [(1, 0, 3); (2, 2, 6); (3, 5, 9)] "longest"
    = Some (Return out) /\
    prune_passes 2 [(1, 0, 3); (2, 2, 6); (3, 5, 9)] = Some n /\ (n ≤ 3)%nat.
Proof.
  apply (prune_terminates 2 [(1, 0, 3); (2, 2, 6); (3, 5, 9)]). simpl. lia.
Defined.

(** The chain of the design document takes all three sweeps its length
    allows. *)
Example prune_chain_passes :
  prune_passes 2 [(1, 0, 3); (2, 2, 6); (3, 5, 9)] = Some 3%nat
  /\ prune_overlapping_matches 1 [(1, 0, 3); (2, 2, 6); (3, 5, 9)] "longest"
     = None.
Proof. split; reflexivity. Qed.

(** The older copy of the pruner is the same function. *)
Lemma target_matcher_prune_loop (pruned : list Match) (c : Match)
    (l : list Match) :
  TargetMatcher.prune_loop pruned c l = prune_loop pruned c l.
Proof.
  revert pruned c. induction l as [| n rest IH1 IH2] using list_pair_ind;
    intros pruned c; simpl; [done |].
  change (TargetMatcher.overlaps c n) with (overlaps c n).
  destruct (overlaps c n).
  - destruct rest as [| c' rest']; [done |]. apply IH2.
  - apply IH1.
Qed.

Lemma target_matcher_prune (fuel : nat) (m : list Match) (strategy : string) :
  TargetMatcher.prune_overlapping_matches fuel m strategy
  = prune_overlapping_matches fuel m strategy.
Proof.
  revert m strategy. induction fuel as [| fuel IH]; intros m strategy; simpl;
    destruct (negb _); try done;
    destruct (length m =? 0)%nat; try done;
    destruct (sorted m) as [| c l]; try done;
    rewrite target_matcher_prune_loop;
    destruct (_ =? _)%nat; try done.
Qed.

(** C10, sub-multiset.  What the pruner returns (in either copy of the
    code) is a sub-multiset of its input: every returned triple is an
    input triple, occurring no more often than in the input, and the output
    is no longer than the input. *)
Theorem prune_sub_multiset (fuel : nat) (matches : list Match) :
  (length matches ≤ S fuel)%nat →
  ∃ out,
    prune_overlapping_matches fuel matches "longest" = Some (Return out) /\
    TargetMatcher.prune_overlapping_matches fuel matches "longest"
    = Some (Return out) /\
    out ⊆+ matches /\
    (∀ x, x ∈ out → x ∈ matches) /\
    (length out ≤ length matches)%nat.
Proof.
  intros Hlen.
  destruct (prune_longest_returns fuel matches Hlen) as [out Hout].
  exists out.
  destruct (prune_longest_result _ _ _ Hout) as (Hsub & _).
  split; [done |].
  split; [by rewrite <- Hout; apply target_matcher_prune |].
  repeat split; try done.
  - intros x Hx. by eapply elem_of_submseteq.
  - by apply submseteq_length.
Qed.

Lemma prune_sub_multiset_witness :
  ∃ out,
    prune_overlapping_matches 1 [(1, 3, 5); (2, 2, 8)] "longest"
    = Some (Return out) /\
    TargetMatcher.prune_overlapping_matches 1 [(1, 3, 5); (2, 2, 8)] "longest"
    = Some (Return out) /\
    out ⊆+ [(1, 3, 5); (2, 2, 8)] /\
    (∀ x, x ∈ out → x ∈ [(1, 3, 5); (2, 2, 8)]) /\
    (length out ≤ 2)%nat.
Proof.
  apply (prune_sub_multiset 1 [(1, 3, 5); (2, 2, 8)]). simpl. lia.
Defined.

(** C9, unsupported strategy.  Under any strategy other than ["longest"]
    the call raises [NotImplementedError] at once: whatever the budget (no
    recursive call is made) and whatever the list, which does not influence
    the outcome (it is the outcome for the empty list). *)
Theorem prune_unsupported_strategy (fuel : nat) (matches : list Match)
    (strategy : string) :
  strategy ≠ "longest" →
  prune_overlapping_matches fuel matches strategy
  = Some (Raise NotImplementedError) /\
  prune_overlapping_matches fuel matches strategy
  = prune_overlapping_matches 0 [] strategy.
Proof.
  intros Hs.
  assert (String.eqb strategy "longest" = false) as Hneq
    by (by apply String.eqb_neq).
  destruct fuel; simpl; rewrite Hneq; done.
Qed.

Lemma prune_unsupported_strategy_witness :
  prune_overlapping_matches 3 [(1, 0, 3); (2, 2, 6)] "shortest"
  = Some (Raise NotImplementedError) /\
  prune_overlapping_matches 3 [(1, 0, 3); (2, 2, 6)] "shortest"
  = prune_overlapping_matches 0 [] "shortest".
Proof.
  apply (prune_unsupported_strategy 3 [(1, 0, 3); (2, 2, 6)] "shortest").
  discriminate.
Defined.

(** The loop walks down the list: the current match and the matches not
    yet popped are always a tail of the list the sweep started from. *)
Lemma loop_iter_suffix (c0 c : Match) (l0 l : list Match) :
  rtc loop_iter (c0, l0) (c, l) → ∃ pre, c0 :: l0 = pre ++ c :: l.
Proof.
  remember (c0, l0) as st0 eqn:E0. remember (c, l) as st eqn:E.
  intros H. revert c0 l0 E0. induction H as [st | st0 st1 st Hstep _ IH];
    intros c0 l0 ->; subst.
  - injection E as -> ->. by exists [].
  - inversion Hstep; subst.
    + destruct (IH eq_refl _ _ eq_refl) as [pre ->].
      by exists (c0 :: n :: pre).
    + destruct (IH eq_refl _ _ eq_refl) as [pre ->].
      by exists (c0 :: pre).
Qed.

Lemma loop_iter_prune_loop (c0 c : Match) (l0 l : list Match) :
  rtc loop_iter (c0, l0) (c, l) →
  ∀ pruned0, ∃ pruned, prune_loop pruned0 c0 l0 = prune_loop pruned c l.
Proof.
  remember (c0, l0) as st0 eqn:E0. remember (c, l) as st eqn:E.
  intros H. revert c0 l0 E0. induction H as [st | st0 st1 st Hstep _ IH];
    intros c0 l0 -> pruned0; subst.
  - injection E as -> ->. by exists pruned0.
  - inversion Hstep as [? n ? ? Hov | ? n ? Hov]; subst; simpl; rewrite Hov.
    + apply (IH eq_refl _ _ eq_refl).
    + apply (IH eq_refl _ _ eq_refl).
Qed.

(** C5, ties.  When the sweep of the sorted list has [curr] as its current
    match and [next] as the candidate, the two overlap and span equally
    many tokens, then [curr] is the earlier of the two in the sorted order
    and it is the one the sweep emits for the collision; the sweep goes on
    with what follows the candidate, and the candidate is dropped. *)
Theorem prune_tie_keeps_first (matches : list Match) (c0 : Match)
    (l0 : list Match) (curr next : Match) (rest : list Match) :
  sorted matches = c0 :: l0 →
  rtc loop_iter (c0, l0) (curr, next :: rest) →
  overlaps curr next = true →
  m_end curr - m_start curr = m_end next - m_start next →
  (∃ pre, sorted matches = pre ++ curr :: next :: rest) /\
  key_le curr next /\
  max_by_span_length curr next = curr /\
  ∃ pruned,
    prune_pass matches = prune_loop pruned curr (next :: rest) /\
    prune_loop pruned curr (next :: rest) =
    match rest with
    | [] => pruned ++ [curr]
    | curr' :: rest' => prune_loop (pruned ++ [curr]) curr' rest'
    end.
Proof.
  intros Hsorted Hreach Hov Hlen.
  destruct (loop_iter_suffix _ _ _ _ Hreach) as [pre Hpre].
  assert (max_by_span_length curr next = curr) as Hmax.
  { unfold max_by_span_length, span_length.
    destruct (Z.ltb_spec (m_end curr - m_start curr)
                (m_end next - m_start next)); [lia | done]. }
  split; [exists pre; congruence |]. split; [| split; [done |]].
  - pose proof (sorted_key_sorted matches) as Hs.
    rewrite Hsorted, Hpre in Hs. unfold key_sorted in Hs.
    apply StronglySorted_app in Hs as (_ & _ & Hs).
    apply StronglySorted_cons in Hs as [Hs _].
    by apply Forall_cons in Hs as [Hs _].
  - destruct (loop_iter_prune_loop _ _ _ _ Hreach []) as [pruned Hp].
    exists pruned. split.
    + unfold prune_pass. by rewrite Hsorted.
    + simpl. by rewrite Hov, Hmax.
Qed.

Lemma prune_tie_keeps_first_witness :
  (∃ pre, sorted [(2, 4, 6); (3, 7, 9); (1, 3, 5); (4, 0, 1)]
          = pre ++ [(1, 3, 5); (2, 4, 6); (3, 7, 9)]) /\
  key_le (1, 3, 5) (2, 4, 6) /\
  max_by_span_length (1, 3, 5) (2, 4, 6) = (1, 3, 5) /\
  ∃ pruned,
    prune_pass [(2, 4, 6); (3, 7, 9); (1, 3, 5); (4, 0, 1)]
    = prune_loop pruned (1, 3, 5) [(2, 4, 6); (3, 7, 9)] /\
    prune_loop pruned (1, 3, 5) [(2, 4, 6); (3, 7, 9)]
    = prune_loop (pruned ++ [(1, 3, 5)]) (3, 7, 9) [].
Proof.
  apply (prune_tie_keeps_first [(2, 4, 6); (3, 7, 9); (1, 3, 5); (4, 0, 1)]
           (4, 0, 1) [(1, 3, 5); (2, 4, 6); (3, 7, 9)]).
  - reflexivity.
  - eapply rtc_l; [| apply rtc_refl]. by apply iter_advance.
  - reflexivity.
  - reflexivity.
Defined.

(** Ties in whole runs: the survivor is the first in sorted order, also
    when it comes later in the input, and the first in the input when the
    keys are equal too. *)
Example prune_tie_sorted_order :
  prune_overlapping_matches 1 [(2, 1, 3); (1, 0, 2)] "longest"
  = Some (Return [(1, 0, 2)]).
Proof. reflexivity. Qed.

Example prune_tie_equal_keys :
  prune_overlapping_matches 1 [(7, 0, 2); (8, 0, 2)] "longest"
  = Some (Return [(7, 0, 2)]).
Proof. reflexivity. Qed.

(** C6, touching matches.  Two matches of which the first ends where
    the second starts do not overlap, and the pruner returns both, in
    whichever order it was given them. *)
Theorem prune_touching_preserved (fuel : nat) (r1 r2 s m e : Z) :
  s < m → m < e →
  overlaps (r1, s, m) (r2, m, e) = false /\
  overlaps (r2, m, e) (r1, s, m) = false /\
  prune_overlapping_matches fuel [(r1, s, m); (r2, m, e)] "longest"
  = Some (Return [(r1, s, m); (r2, m, e)]) /\
  prune_overlapping_matches fuel [(r2, m, e); (r1, s, m)] "longest"
  = Some (Return [(r1, s, m); (r2, m, e)]).
Proof.
  intros Hsm Hme.
  assert (overlaps (r1, s, m) (r2, m, e) = false) as Hov.
  { apply overlaps_false. unfold m_start, m_end. simpl. lia. }
  split; [done |]. split; [by rewrite overlaps_sym |].
  assert (sorted [(r1, s, m); (r2, m, e)] = [(r1, s, m); (r2, m, e)]) as S1.
  { apply sorted_id. repeat constructor. unfold key_le, m_start. simpl. lia. }
  assert (sorted [(r2, m, e); (r1, s, m)] = [(r1, s, m); (r2, m, e)]) as S2.
  { simpl. unfold key_leb, sort_key, m_start, m_end. simpl.
    destruct (Z.ltb_spec m s); [lia |].
    destruct (Z.eqb_spec m s); [lia | done]. }
  split; rewrite prune_longest_unfold; unfold prune_pass; rewrite ?S1, ?S2;
    simpl; by rewrite Hov.
Qed.

Lemma prune_touching_preserved_witness :
  overlaps (1, 0, 3) (2, 3, 5) = false /\
  overlaps (2, 3, 5) (1, 0, 3) = false /\
  prune_overlapping_matches 0 [(1, 0, 3); (2, 3, 5)] "longest"
  = Some (Return [(1, 0, 3); (2, 3, 5)]) /\
  prune_overlapping_matches 0 [(2, 3, 5); (1, 0, 3)] "longest"
  = Some (Return [(1, 0, 3); (2, 3, 5)]).
Proof.
  apply (prune_touching_preserved 0 1 2 0 3 5); lia.
Defined.

(** A sorted list in which no match overlaps its successor is a fixed
    point of the pruner. *)
Lemma prune_fixed_point (fuel : nat) (l : list Match) :
  key_sorted l → no_adjacent_overlap l →
  prune_overlapping_matches fuel l "longest" = Some (Return l).
Proof.
  intros Hs Hadj. rewrite prune_longest_unfold.
  destruct (Nat.eqb_spec (length l) 0); [done |].
  rewrite prune_pass_id, sorted_id by (by rewrite ?sorted_id).
  by rewrite Nat.eqb_refl.
Qed.

(** Touching is harmless only for non-empty ranges: an empty range at
    the end of a match overlaps it. *)
Example touching_empty_range_overlaps :
  overlaps (1, 0, 3) (2, 3, 3) = true.
Proof. reflexivity. Qed.

(** C7, idempotence.  On a list [l] in which no two matches overlap the
    pruner returns [l] sorted by [(start, end)], a permutation of [l]; and
    for every list [x], pruning what the pruner returned for [x] returns it
    unchanged. *)
Theorem prune_idempotent (fuel : nat) (l x : list Match) :
  pairwise_disjoint l →
  (length x ≤ S fuel)%nat →
  (prune_overlapping_matches fuel l "longest" = Some (Return (sorted l)) /\
   sorted l ≡ₚ l /\ key_sorted (sorted l)) /\
  ∃ out,
    prune_overlapping_matches fuel x "longest" = Some (Return out) /\
    ∀ fuel', prune_overlapping_matches fuel' out "longest"
             = Some (Return out).
Proof.
  intros Hd Hlen. split.
  - split; [| split; [apply sorted_perm | apply sorted_key_sorted]].
    assert (no_adjacent_overlap (sorted l)) as Hadj.
    { apply disjoint_list_adjacent.
      apply (disjoint_list_perm l); [by rewrite sorted_perm |].
      by apply disjoint_list_pairwise. }
    rewrite prune_longest_unfold.
    destruct (Nat.eqb_spec (length l) 0) as [H0 | H0].
    { by destruct l. }
    rewrite prune_pass_id by done.
    by rewrite sorted_length, Nat.eqb_refl.
  - destruct (prune_longest_returns fuel x Hlen) as [out Hout].
    exists out. split; [done |]. intros fuel'.
    destruct (prune_longest_result _ _ _ Hout) as (_ & Hs & Hadj).
    by apply prune_fixed_point.
Qed.

Lemma prune_idempotent_witness :
  (prune_overlapping_matches 2 [(3, 6, 8); (2, 3, 5); (1, 0, 3)] "longest"
   = Some (Return (sorted [(3, 6, 8); (2, 3, 5); (1, 0, 3)])) /\
   sorted [(3, 6, 8); (2, 3, 5); (1, 0, 3)]
   ≡ₚ [(3, 6, 8); (2, 3, 5); (1, 0, 3)] /\
   key_sorted (sorted [(3, 6, 8); (2, 3, 5); (1, 0, 3)])) /\
  ∃ out,
    prune_overlapping_matches 2 [(1, 0, 3); (2, 2, 6); (3, 5, 9)] "longest"
    = Some (Return out) /\
    ∀ fuel', prune_overlapping_matches fuel' out "longest"
             = Some (Return out).
Proof.
  apply (prune_idempotent 2 [(3, 6, 8); (2, 3, 5); (1, 0, 3)]
           [(1, 0, 3); (2, 2, 6); (3, 5, 9)]).
  - intros i j a b Hij Hi Hj.
    destruct i as [| [| [| i]]], j as [| [| [| j]]]; simpl in Hi, Hj;
      try discriminate; try (exfalso; apply Hij; reflexivity);
      injection Hi as <-; injection Hj as <-; reflexivity.
  - simpl. lia.
Defined.

(** ** Span materialisation *)

Section SpanLemmas.

Variable strings_getitem : Doc → Z → outcome string.
Variable new_Span : Doc → Z → Z → option string → outcome Span.

Lemma matches_to_spans_loop_acc (doc : Doc) (set_label : bool)
    (spans : list Span) (matches : list Match) :
  matches_to_spans_loop strings_getitem new_Span doc set_label spans matches =
  match matches_to_spans_loop strings_getitem new_Span doc set_label [] matches
  with
  | Return out => Return (spans ++ out)
  | Raise e => Raise e
  end.
Proof.
  revert spans. induction matches as [| [[rid st] en] l IH]; intros spans;
    simpl.
  - by rewrite app_nil_r.
  - destruct (if set_label then _ else _) as [label | e]; [| done].
    destruct (new_Span doc st en label) as [sp | e]; [| done].
    rewrite (IH (spans ++ [sp])), (IH [sp]).
    destruct (matches_to_spans_loop _ _ _ _ [] l); [| done].
    by rewrite <- app_assoc.
Qed.

(** The call, one match at a time. *)
Lemma matches_to_spans_cons (doc : Doc) (set_label : bool) (m : Match)
    (matches : list Match) :
  matches_to_spans strings_getitem new_Span doc (m :: matches) set_label =
  match span_for strings_getitem new_Span doc set_label m with
  | Raise e => Raise e
  | Return span =>
      match matches_to_spans strings_getitem new_Span doc matches set_label
      with
      | Return out => Return (span :: out)
      | Raise e => Raise e
      end
  end.
Proof.
  destruct m as [[rid st] en]. unfold matches_to_spans, span_for. simpl.
  destruct (if set_label then _ else _) as [label | e]; [| done].
  unfold m_start, m_end. simpl.
  destruct (new_Span doc st en label) as [sp | e]; [| done].
  by rewrite matches_to_spans_loop_acc.
Qed.

Lemma matches_to_spans_app (doc : Doc) (set_label : bool)
    (xs ys : list Match) :
  matches_to_spans strings_getitem new_Span doc (xs ++ ys) set_label =
  match matches_to_spans strings_getitem new_Span doc xs set_label with
  | Raise e => Raise e
  | Return a =>
      match matches_to_spans strings_getitem new_Span doc ys set_label with
      | Return b => Return (a ++ b)
      | Raise e => Raise e
      end
  end.
Proof.
  induction xs as [| m xs IH]; simpl.
  - change (matches_to_spans strings_getitem new_Span doc [] set_label)
      with (Return (@nil Span)).
    by destruct (matches_to_spans _ _ doc ys set_label).
  - rewrite !matches_to_spans_cons, IH.
    destruct (span_for _ _ doc set_label m); [| done].
    destruct (matches_to_spans _ _ doc xs set_label); [| done].
    by destruct (matches_to_spans _ _ doc ys set_label).
Qed.

Lemma span_for_labelled (doc : Doc) (m : Match) (span : Span) :
  span_for strings_getitem new_Span doc true m = Return span ↔
  ∃ label, materialised strings_getitem new_Span doc m label span.
Proof.
  unfold span_for, materialised. split.
  - destruct (strings_getitem doc (m_id m)) as [s | e]; [| done]. eauto.
  - intros (label & -> & H). done.
Qed.

(** With [set_label], the call returns exactly when every lookup and every
    [Span] call returns, and then with the spans these calls made. *)
Lemma matches_to_spans_labelled (doc : Doc) (matches : list Match)
    (spans : list Span) :
  matches_to_spans strings_getitem new_Span doc matches true = Return spans ↔
  ∃ labels,
    Forall3 (materialised strings_getitem new_Span doc) matches labels spans.
Proof.
  revert spans. induction matches as [| m l IH]; intros spans.
  - split.
    + intros [= <-]. exists []. constructor.
    + intros (labels & H). by inversion H.
  - rewrite matches_to_spans_cons. split.
    + destruct (span_for _ _ doc true m) as [sp | e] eqn:Hm; [| done].
      destruct (matches_to_spans _ _ doc l true) as [out | e]; [| done].
      intros [= <-]. apply span_for_labelled in Hm as (label & Hm).
      destruct (proj1 (IH out) eq_refl) as (labels & Hl).
      exists (label :: labels). by constructor.
    + intros (labels & H). inversion H as [| ? label sp ? labels' out Hm Hl];
        subst.
      rewrite (proj2 (span_for_labelled doc m sp)) by eauto.
      by rewrite (proj2 (IH out)) by eauto.
Qed.

End SpanLemmas.

Lemma example_spans :
  matches_to_spans example_strings_getitem spacy_Span example_doc
    [(1457744817548311358, 0, 2)] true
  = Return [mkSpan example_doc 0 2 (Some "PROBLEM_0")].
Proof. by vm_compute. Qed.

(** C3, as the design document has it, fails: the label of a span is not
    the category of the rule that owns the match.  After the registry has
    added the literal rule of category PROBLEM, a match of that rule carries
    the id of the key PROBLEM_0, and the span is made with that key as its
    label, not with PROBLEM. *)
Lemma matches_to_spans_label_not_category :
  ¬ (∀ (strings_getitem : Doc → Z → outcome string)
       (new_Span : Doc → Z → Z → option string → outcome Span)
       (w : world) (doc : Doc) (matches : list Match)
       (categories : list string) (spans : list Span),
       Forall2 (λ m c, owner_category strings_getitem w doc (m_id m) = Some c)
         matches categories →
       Forall3 (λ m c span,
                  new_Span doc (m_start m) (m_end m) (Some c) = Return span)
         matches categories spans →
       matches_to_spans strings_getitem new_Span doc matches true
       = Return spans).
Proof.
  intros H.
  specialize (H example_strings_getitem spacy_Span
                (add [2%positive] example_world).2 example_doc
                [(1457744817548311358, 0, 2)] ["PROBLEM"]
                [mkSpan example_doc 0 2 (Some "PROBLEM")]).
  rewrite example_spans in H.
  assert (Return [mkSpan example_doc 0 2 (Some "PROBLEM_0")]
          = Return [mkSpan example_doc 0 2 (Some "PROBLEM")]) as E.
  { apply H.
    - repeat constructor; by vm_compute.
    - repeat constructor; by vm_compute. }
  injection E as E. discriminate E.
Qed.

(** C3, amended.  With [set_label] the call makes, for each match in order,
    a span over the match's token range of the document whose label is
    the string the document's vocabulary holds for the match's id; it
    returns these spans whenever every lookup and every [Span] call
    returns.  The document handed to spaCy is the document as it was
    given. *)
Theorem matches_to_spans_spec
    (strings_getitem : Doc → Z → outcome string)
    (new_Span : Doc → Z → Z → option string → outcome Span)
    (doc : Doc) (matches : list Match) (labels : list string)
    (spans : list Span) :
  Forall3 (λ m label span,
             strings_getitem doc (m_id m) = Return label /\
             new_Span doc (m_start m) (m_end m) (Some label) = Return span)
    matches labels spans →
  matches_to_spans strings_getitem new_Span doc matches true = Return spans.
Proof.
  intros H. apply matches_to_spans_labelled. by exists labels.
Qed.

Lemma matches_to_spans_spec_witness :
  matches_to_spans example_strings_getitem spacy_Span example_doc
    [(1457744817548311358, 0, 2); (1457744817548311358, 2, 3)] true
  = Return [mkSpan example_doc 0 2 (Some "PROBLEM_0");
            mkSpan example_doc 2 3 (Some "PROBLEM_0")].
Proof.
  apply (matches_to_spans_spec example_strings_getitem spacy_Span example_doc
           [(1457744817548311358, 0, 2); (1457744817548311358, 2, 3)]
           ["PROBLEM_0"; "PROBLEM_0"]).
  repeat constructor.
Defined.

(** With spaCy's string store and [Span], the labelled span is over the
    match's range and carries the string held for the id; it is made only
    for a range inside the document. *)
Example spacy_span_out_of_range :
  matches_to_spans example_strings_getitem spacy_Span example_doc
    [(1457744817548311358, 0, 5)] true
  = Raise IndexError.
Proof. by vm_compute. Qed.

Example spacy_id_not_uint64 :
  matches_to_spans example_strings_getitem spacy_Span example_doc
    [(2 ^ 64, 0, 1)] true
  = Raise OverflowError.
Proof. by vm_compute. Qed.

(** ** The registry *)

Lemma for_each_app {S A} (xs ys : list A) (body : A → M S unit) (σ : S) :
  for_each (xs ++ ys) body σ =
  match for_each xs body σ with
  | (Return _, σ') => for_each ys body σ'
  | (Raise e, σ') => (Raise e, σ')
  end.
Proof.
  revert σ. induction xs as [| x xs IH]; intros σ; simpl; [done |].
  unfold bind. destruct (body x σ) as [[[] | e] σ']; [apply IH | done].
Qed.

(** What one iteration of [add] leaves behind when it rejects the pattern
    of a rule. *)
Lemma add_rule_invalid_pattern (w : world) (rule : loc) (r : BaseRule)
    (type_name : string) :
  heap w !! rule = Some (RuleObj r) →
  pattern r = PatternOther type_name →
  add_rule rule w =
  (Raise (ValueError_pattern_type type_name),
   let rule_id := format_rule_id (category r) (__rule_count (self w)) in
   rule_map_setitem rule_id rule
     (assign_rule_id rule rule_id (labels_add (category r) w))).
Proof.
  intros Hr Hp. unfold add_rule, bind, gets, modify, raise. simpl.
  rewrite Hr. simpl. by rewrite Hp.
Qed.

(** C4, as the design document has it, fails: the rule that is rejected
    for its pattern has been entered in the rule map and its category in
    the category set before the pattern is looked at. *)
Lemma add_rejected_rule_leaves_trace :
  ¬ (∀ (w w1 w2 : world) (pre post : list loc) (bad : loc) (r : BaseRule)
       (type_name : string),
       add pre w = (Return tt, w1) →
       heap w1 !! bad = Some (RuleObj r) →
       pattern r = PatternOther type_name →
       add (pre ++ bad :: post) w
       = (Raise (ValueError_pattern_type type_name), w2) →
       _rule_map (self w2) = _rule_map (self w1) /\
       _labels (self w2) = _labels (self w1) /\
       __matcher (self w2) = __matcher (self w1) /\
       __phrase_matcher (self w2) = __phrase_matcher (self w1) /\
       __regex_matcher (self w2) = __regex_matcher (self w1)).
Proof.
  intros H.
  destruct (H example_world example_world (add [1%positive] example_world).2
              [] [] 1%positive int_pattern_rule "int")
    as (Hmap & _); try reflexivity.
  apply (f_equal (λ m : gmap string loc, m !! "PROBLEM_0")) in Hmap.
  vm_compute in Hmap. discriminate Hmap.
Qed.

(** C4, amended.  When [add] meets a rule whose pattern is neither absent,
    a string nor a list, it raises the error for the pattern's type and
    stops: the rules before it stay registered as they were, the rules
    after it are not looked at, and no engine has received the rejected
    rule; but the rule map holds the rejected rule under the id it was
    given, the category set holds its category, and the rule object carries
    the id. *)
Theorem add_invalid_pattern (w w1 : world) (pre post : list loc) (bad : loc)
    (r : BaseRule) (type_name : string) :
  add pre w = (Return tt, w1) →
  heap w1 !! bad = Some (RuleObj r) →
  pattern r = PatternOther type_name →
  let rule_id := format_rule_id (category r) (__rule_count (self w1)) in
  ∃ w2,
    add (pre ++ bad :: post) w
    = (Raise (ValueError_pattern_type type_name), w2) /\
    __matcher (self w2) = __matcher (self w1) /\
    __phrase_matcher (self w2) = __phrase_matcher (self w1) /\
    __regex_matcher (self w2) = __regex_matcher (self w1) /\
    _rule_map (self w2) = <[rule_id := bad]> (_rule_map (self w1)) /\
    _labels (self w2) = {[category r]} ∪ _labels (self w1) /\
    heap w2 = <[bad := RuleObj (set_rule_id rule_id r)]> (heap w1).
Proof.
  intros Hpre Hr Hp rule_id. unfold add in *.
  rewrite for_each_app, Hpre. simpl. unfold bind at 1.
  rewrite (add_rule_invalid_pattern w1 bad r type_name Hr Hp).
  eexists. split; [reflexivity |]. simpl.
  unfold assign_rule_id. simpl. rewrite Hr. done.
Qed.

Lemma add_invalid_pattern_witness :
  ∃ w2,
    add ([2%positive] ++ 1%positive :: [2%positive]) example_world
    = (Raise (ValueError_pattern_type "int"), w2) /\
    __matcher (self w2) = __matcher (self (add [2%positive] example_world).2) /\
    __phrase_matcher (self w2)
    = __phrase_matcher (self (add [2%positive] example_world).2) /\
    __regex_matcher (self w2)
    = __regex_matcher (self (add [2%positive] example_world).2) /\
    _rule_map (self w2)
    = <[format_rule_id "PROBLEM" 1 := 1%positive]>
        (_rule_map (self (add [2%positive] example_world).2)) /\
    _labels (self w2)
    = {["PROBLEM"]} ∪ _labels (self (add [2%positive] example_world).2) /\
    heap w2
    = <[1%positive :=
          RuleObj (set_rule_id (format_rule_id "PROBLEM" 1) int_pattern_rule)]>
        (heap (add [2%positive] example_world).2).
Proof.
  apply (add_invalid_pattern example_world (add [2%positive] example_world).2
           [2%positive] [2%positive] 1%positive int_pattern_rule "int");
    reflexivity.
Defined.

(** C8, rule ids.  The code gives two rules the same id: [add] numbers a
    rule and enters it in the rule map before it looks at the pattern, and
    advances the counter only after; a rule rejected for its pattern keeps
    the id, and the next rule added is given the same number.  Here the
    rejected rule and the literal rule, both of category PROBLEM, end up as
    PROBLEM_0, and the rule map holds only the second. *)
Theorem add_reuses_rule_id_after_error :
  ∃ w1 w2,
    add [1%positive] example_world
    = (Raise (ValueError_pattern_type "int"), w1) /\
    __rule_count (self w1) = 0%N /\
    add [2%positive] w1 = (Return tt, w2) /\
    rule_id_of (heap w2) 1%positive = Some "PROBLEM_0" /\
    rule_id_of (heap w2) 2%positive = Some "PROBLEM_0" /\
    _rule_map (self w1) !! "PROBLEM_0" = Some 1%positive /\
    _rule_map (self w2) !! "PROBLEM_0" = Some 2%positive.
Proof.
  exists (add [1%positive] example_world).2.
  exists (add [2%positive] (add [1%positive] example_world).2).2.
  repeat split; by vm_compute.
Qed.

(** The older copy numbers rules by the length of [_rules], which it
    extends with the whole batch before the loop: there the same two calls
    give the second rule a new number. *)
Example old_add_does_not_reuse_rule_id :
  ∃ w1 w2,
    TargetMatcher.add [1%positive] example_world_old
    = (Raise (ValueError_pattern_type "int"), w1) /\
    TargetMatcher.add [2%positive] w1 = (Return tt, w2) /\
    rule_id_of (TargetMatcher.heap w2) 1%positive = Some "PROBLEM_0" /\
    rule_id_of (TargetMatcher.heap w2) 2%positive = Some "PROBLEM_1".
Proof.
  exists (TargetMatcher.add [1%positive] example_world_old).2.
  exists (TargetMatcher.add [2%positive]
            (TargetMatcher.add [1%positive] example_world_old).2).2.
  repeat split; by vm_compute.
Qed.

(** *** What holds of rule ids: calls that return never reuse one *)

Lemma pretty_N_go_no_underscore (x : N) (s : string) :
  has_underscore s = false → has_underscore (pretty_N_go x s) = false.
Proof.
  revert s. induction (N.lt_wf_0 x) as [x _ IH]; intros s Hs.
  assert (x = 0 ∨ 0 < x)%N as [-> | Hx] by lia.
  - by rewrite pretty_N_go_0.
  - rewrite pretty_N_go_step by done. apply IH.
    { by apply N.div_lt. }
    simpl. rewrite Hs. unfold pretty_N_char. by repeat case_match.
Qed.

Lemma pretty_N_no_underscore (n : N) : has_underscore (pretty n) = false.
Proof.
  unfold pretty, pretty_N. case_decide; [done |].
  by apply pretty_N_go_no_underscore.
Qed.

Lemma has_underscore_app (c p : string) :
  has_underscore (c +:+ String "_" p) = true.
Proof.
  induction c as [| a c IH]; simpl; [done |].
  rewrite IH. by rewrite orb_true_r.
Qed.

Lemma underscore_split (c c' p p' : string) :
  has_underscore p = false → has_underscore p' = false →
  c +:+ String "_" p = c' +:+ String "_" p' → c = c' /\ p = p'.
Proof.
  intros Hp Hp'. revert c'.
  induction c as [| a c IH]; intros [| a' c']; simpl; intros H.
  - by injection H.
  - injection H as _ ->. by rewrite has_underscore_app in Hp.
  - injection H as _ <-. by rewrite has_underscore_app in Hp'.
  - injection H as -> H. by destruct (IH _ H) as [-> ->].
Qed.

(** A rule id determines the category and the number it was formed from. *)
Lemma format_rule_id_inj (c c' : string) (n n' : N) :
  format_rule_id c n = format_rule_id c' n' → c = c' /\ n = n'.
Proof.
  unfold format_rule_id. simpl. intros H.
  apply underscore_split in H as [-> H]; [| apply pretty_N_no_underscore..].
  split; [done |]. by apply (inj pretty).
Qed.

Lemma string_length_app (s1 s2 : string) :
  String.length (s1 +:+ s2) = (String.length s1 + String.length s2)%nat.
Proof.
  induction s1 as [| a s1 IH]; simpl; [done | by rewrite IH].
Qed.

(** The id is never the bare category. *)
Lemma format_rule_id_not_category (c : string) (n : N) :
  format_rule_id c n ≠ c.
Proof.
  unfold format_rule_id. intros H.
  apply (f_equal String.length) in H.
  rewrite string_length_app in H. simpl in H. lia.
Qed.

(** An iteration of [add] that completes. *)
Lemma add_rule_returns (w w' : world) (rule : loc) :
  add_rule rule w = (Return tt, w') →
  ∃ r, heap w !! rule = Some (RuleObj r) /\
       let rule_id := format_rule_id (category r) (__rule_count (self w)) in
       _rule_map (self w') = <[rule_id := rule]> (_rule_map (self w)) /\
       _labels (self w') = {[category r]} ∪ _labels (self w) /\
       __rule_count (self w') = (__rule_count (self w) + 1)%N /\
       heap w' = <[rule := RuleObj (set_rule_id rule_id r)]> (heap w).
Proof.
  unfold add_rule, bind, gets, modify, raise. simpl.
  destruct (heap w !! rule) as [[r | ty] |] eqn:Hr; try done.
  intros H. exists r. split; [done |].
  destruct (pattern r); simpl in H; try done;
    injection H as <-; simpl; unfold assign_rule_id; simpl; by rewrite Hr.
Qed.

Lemma add_rule_keeps_ids_below_count (w w' : world) (rule : loc) :
  ids_below_count (self w) →
  add_rule rule w = (Return tt, w') →
  ids_below_count (self w').
Proof.
  intros Hinv (r & _ & Hmap & _ & Hcount & _)%add_rule_returns key.
  rewrite Hmap, Hcount.
  destruct (decide (format_rule_id (category r) (__rule_count (self w)) = key))
    as [<- | Hne].
  - intros _. eexists _, _. split; [done | lia].
  - rewrite lookup_insert_ne by done. intros (c & n & -> & Hn)%Hinv.
    exists c, n. split; [done | lia].
Qed.

Lemma add_keeps_ids_below_count (rules : list loc) (w w' : world) :
  ids_below_count (self w) →
  add rules w = (Return tt, w') →
  ids_below_count (self w').
Proof.
  unfold add. revert w. induction rules as [| rule rules IH]; intros w Hinv;
    simpl.
  - by intros [= <-].
  - unfold bind at 1. destruct (add_rule rule w) as [[[] | e] w1] eqn:H1;
      [| done].
    intros H. eapply IH; [| exact H].
    by eapply add_rule_keeps_ids_below_count.
Qed.

Lemma registered_ids_below_count (w : world) :
  registered w → ids_below_count (self w).
Proof.
  induction 1 as [h attr prune | w rules w' _ IH Hadd | w h _ IH].
  - intros key [x Hx]. simpl in Hx. by rewrite lookup_empty in Hx.
  - by eapply add_keeps_ids_below_count.
  - done.
Qed.

(** As long as the calls of [add] return, a rule is given an id that no
    rule was given before: the key is new to the rule map. *)
Lemma add_rule_fresh_id (w w' : world) (rule : loc) :
  ids_below_count (self w) →
  add_rule rule w = (Return tt, w') →
  ∃ rule_id,
    rule_id_of (heap w') rule = Some rule_id /\
    _rule_map (self w) !! rule_id = None /\
    _rule_map (self w') !! rule_id = Some rule.
Proof.
  intros Hinv (r & Hr & Hmap & _ & _ & Hheap)%add_rule_returns.
  exists (format_rule_id (category r) (__rule_count (self w))).
  unfold rule_id_of. rewrite Hheap, Hmap, !lookup_insert_eq.
  repeat split; try done.
  destruct (_rule_map (self w) !! _) eqn:Hk; [| done].
  destruct (Hinv _ (mk_is_Some _ _ Hk)) as (c & n & Heq & Hn).
  apply format_rule_id_inj in Heq as [_ <-]. lia.
Qed.

(** ** Scenarios of the design document *)

Example prune_nested :
  prune_overlapping_matches 2 [(1, 3, 5); (2, 2, 8)] "longest"
  = Some (Return [(2, 2, 8)]).
Proof. reflexivity. Qed.

Example prune_chain :
  prune_overlapping_matches 3 [(1, 0, 3); (2, 2, 6); (3, 5, 9)] "longest"
  = Some (Return [(2, 2, 6)]).
Proof. reflexivity. Qed.

Example prune_empty :
  prune_overlapping_matches 0 [] "longest" = Some (Return []).
Proof. reflexivity. Qed.

(** * Further properties of the code *)

(** ** The overlap test, read as sharing a token *)

(** X1.  For two matches with non-empty ranges the overlap test holds
    exactly when some token lies in both ranges; the test is symmetric. *)
Theorem overlaps_iff_common_token (a b : Match) :
  m_start a < m_end a → m_start b < m_end b →
  (overlaps a b = true ↔ ∃ t, covers a t /\ covers b t) /\
  overlaps a b = overlaps b a.
Proof.
  intros Ha Hb. split; [| apply overlaps_sym].
  rewrite overlaps_true, !_match_overlaps_true. unfold covers. split.
  - intros H. exists (Z.max (m_start a) (m_start b)). lia.
  - intros [t Ht]. lia.
Qed.

Lemma overlaps_iff_common_token_witness :
  (overlaps (1, 0, 10) (2, 3, 5) = true ↔
   ∃ t, covers (1, 0, 10) t /\ covers (2, 3, 5) t) /\
  overlaps (1, 0, 10) (2, 3, 5) = overlaps (2, 3, 5) (1, 0, 10).
Proof.
  apply (overlaps_iff_common_token (1, 0, 10) (2, 3, 5));
    unfold m_start, m_end; simpl; lia.
Defined.

(** ** What the pruner returns *)

Lemma prune_longest_nonempty (fuel : nat) (m out : list Match) :
  prune_overlapping_matches fuel m "longest" = Some (Return out) →
  m ≠ [] → out ≠ [].
Proof.
  revert m. induction fuel as [| fuel IH]; intros m;
    rewrite prune_longest_unfold;
    (destruct (Nat.eqb_spec (length m) 0) as [H0 | H0];
     [by intros [= <-] |]);
    (destruct (Nat.eqb_spec (length (prune_pass m)) (length m)) as [Hf | Hf];
     [intros [= <-] Hm; apply prune_pass_length in Hm;
      intros E; rewrite E in Hm; simpl in Hm; lia |]).
  - done.
  - intros H Hm. apply (IH _ H). apply prune_pass_length in Hm.
    intros E. rewrite E in Hm. simpl in Hm. lia.
Qed.

(** X2.  Whatever the input, the list the pruner returns is in ascending
    order of [(start, end)], and it is empty only if the input is. *)
Theorem prune_sorted_nonempty (fuel : nat) (matches : list Match) :
  (length matches ≤ S fuel)%nat →
  ∃ out,
    prune_overlapping_matches fuel matches "longest" = Some (Return out) /\
    key_sorted out /\
    (matches ≠ [] → out ≠ []).
Proof.
  intros Hlen.
  destruct (prune_longest_returns fuel matches Hlen) as [out Hout].
  exists out. split; [done |].
  destruct (prune_longest_result _ _ _ Hout) as (_ & Hs & _).
  split; [done |]. by apply (prune_longest_nonempty fuel).
Qed.

Lemma prune_sorted_nonempty_witness :
  ∃ out,
    prune_overlapping_matches 2 [(3, 5, 9); (2, 2, 6); (1, 0, 3)] "longest"
    = Some (Return out) /\
    key_sorted out /\
    ([(3, 5, 9); (2, 2, 6); (1, 0, 3)] ≠ [] → out ≠ []).
Proof.
  apply (prune_sorted_nonempty 2 [(3, 5, 9); (2, 2, 6); (1, 0, 3)]).
  simpl. lia.
Defined.

(** ** Matches that win all their collisions *)

Lemma max_by_span_length_dominant_l (m x : Match) :
  dominates m x → overlaps m x = true → max_by_span_length m x = m.
Proof.
  intros Hd Hov. specialize (Hd Hov). unfold max_by_span_length.
  destruct (Z.ltb_spec (span_length m) (span_length x)); [lia | done].
Qed.

Lemma max_by_span_length_dominant_r (m x : Match) :
  dominates m x → overlaps x m = true → max_by_span_length x m = m.
Proof.
  intros Hd Hov. rewrite overlaps_sym in Hov. specialize (Hd Hov).
  unfold max_by_span_length.
  destruct (Z.ltb_spec (span_length x) (span_length m)); [done | lia].
Qed.

(** A sweep emits a match that dominates all the others it is swept
    with. *)
Lemma prune_loop_keeps_dominant (m : Match) (l : list Match) :
  ∀ c p q, c :: l = p ++ m :: q → Forall (dominates m) (p ++ q) →
           m ∈ prune_loop [] c l.
Proof.
  induction l as [| n rest IH1 IH2] using list_pair_ind; intros c p q E Hd.
  - destruct p as [| c' [| ? ?]]; try done. injection E as -> _. simpl.
    apply list_elem_of_here.
  - rewrite prune_loop_step.
    destruct p as [| c' p].
    + (* the current match is [m] *)
      injection E as -> <-. simpl in Hd. apply Forall_cons in Hd as [Hn _].
      destruct (overlaps m n) eqn:Hov.
      * rewrite max_by_span_length_dominant_l by done. apply list_elem_of_here.
      * apply list_elem_of_here.
    + injection E as <- E. simpl in Hd. apply Forall_cons in Hd as [Hc Hd].
      destruct p as [| n' p].
      * (* the candidate is [m] *)
        injection E as -> <-.
        destruct (overlaps c m) eqn:Hov.
        -- rewrite max_by_span_length_dominant_r by done.
           apply list_elem_of_here.
        -- apply list_elem_of_further. by apply (IH1 m [] rest).
      * injection E as <- E. simpl in Hd.
        destruct (overlaps c n).
        -- apply list_elem_of_further. apply Forall_cons in Hd as [_ Hd].
           destruct rest as [| c' rest'].
           ++ by destruct p.
           ++ by apply (IH2 c' p q).
        -- apply list_elem_of_further.
           apply (IH1 n (n :: p) q); [by rewrite E | done].
Qed.

Lemma prune_pass_keeps_dominant (m : Match) (matches rest : list Match) :
  matches ≡ₚ m :: rest → Forall (dominates m) rest → m ∈ prune_pass matches.
Proof.
  intros Hp Hd. unfold prune_pass.
  assert (sorted matches ≡ₚ m :: rest) as Hs by (by rewrite sorted_perm).
  assert (m ∈ sorted matches) as [p [q E]]%list_elem_of_split.
  { rewrite Hs. apply list_elem_of_here. }
  rewrite E in Hs. symmetry in Hs. apply Permutation_cons_app_inv in Hs.
  destruct (sorted matches) as [| c l]; [by destruct p |].
  apply (prune_loop_keeps_dominant m l c p q E). by rewrite <- Hs.
Qed.

Lemma prune_keeps_dominant (fuel : nat) (m : Match)
    (matches rest out : list Match) :
  matches ≡ₚ m :: rest → Forall (dominates m) rest →
  prune_overlapping_matches fuel matches "longest" = Some (Return out) →
  m ∈ out.
Proof.
  revert matches rest. induction fuel as [| fuel IH]; intros matches rest Hp Hd;
    rewrite prune_longest_unfold;
    (destruct (Nat.eqb_spec (length matches) 0) as [H0 | H0];
     [apply Permutation_length in Hp; simpl in Hp; lia |]);
    (destruct (Nat.eqb_spec (length (prune_pass matches)) (length matches));
     [intros [= <-]; by eapply prune_pass_keeps_dominant |]).
  - done.
  - pose proof (prune_pass_keeps_dominant m matches rest Hp Hd) as Hin.
    apply elem_of_Permutation in Hin as [rest' Hp'].
    apply (IH _ rest' Hp').
    assert (rest' ⊆+ rest) as Hsub.
    { apply (submseteq_app_inv_l _ _ [m]). simpl.
      rewrite <- Hp', <- Hp. apply prune_pass_submseteq. }
    rewrite Forall_forall in *. intros x Hx. apply Hd.
    by eapply elem_of_submseteq.
Qed.

(** X3.  A match that is longer than every other match it overlaps (in
    particular one that overlaps no other match) is never pruned. *)
Theorem prune_dominant_survives (fuel : nat) (m : Match)
    (before after : list Match) :
  Forall (dominates m) (before ++ after) →
  (length (before ++ m :: after) ≤ S fuel)%nat →
  ∃ out,
    prune_overlapping_matches fuel (before ++ m :: after) "longest"
    = Some (Return out) /\
    m ∈ out.
Proof.
  intros Hd Hlen.
  destruct (prune_longest_returns fuel _ Hlen) as [out Hout].
  exists out. split; [done |].
  apply (prune_keeps_dominant fuel m (before ++ m :: after)
           (before ++ after) out); try done.
  by rewrite Permutation_middle.
Qed.

Lemma prune_dominant_survives_witness :
  ∃ out,
    prune_overlapping_matches 3
      ([(1, 0, 3); (2, 2, 4)] ++ (3, 3, 9) :: [(4, 8, 10)]) "longest"
    = Some (Return out) /\
    (3, 3, 9) ∈ out.
Proof.
  apply (prune_dominant_survives 3 (3, 3, 9) [(1, 0, 3); (2, 2, 4)]
           [(4, 8, 10)]).
  - repeat constructor; intros _; reflexivity.
  - simpl. lia.
Defined.

Lemma max_by_span_length_ge (a b : Match) :
  span_length a <= span_length (max_by_span_length a b) /\
  span_length b <= span_length (max_by_span_length a b).
Proof.
  unfold max_by_span_length.
  destruct (Z.ltb_spec (span_length a) (span_length b)); lia.
Qed.

(** X4.  Of two matches that overlap, the pruner returns exactly one, and
    it is one that spans at least as many tokens as the other. *)
Theorem prune_pair_keeps_longer (fuel : nat) (a b : Match) :
  overlaps a b = true →
  ∃ w,
    prune_overlapping_matches (S fuel) [a; b] "longest" = Some (Return [w]) /\
    (w = a \/ w = b) /\
    span_length a <= span_length w /\ span_length b <= span_length w.
Proof.
  intros Hov.
  assert (∀ w, prune_overlapping_matches fuel [w] "longest"
               = Some (Return [w])) as Hone.
  { intros w. by rewrite prune_longest_unfold. }
  rewrite prune_longest_unfold. unfold prune_pass. simpl.
  destruct (key_leb (sort_key a) (sort_key b)); simpl.
  - rewrite Hov. simpl. exists (max_by_span_length a b).
    split; [apply Hone |]. split; [apply max_by_span_length_cases |].
    apply max_by_span_length_ge.
  - rewrite overlaps_sym, Hov. simpl. exists (max_by_span_length b a).
    split; [apply Hone |].
    split; [destruct (max_by_span_length_cases b a); auto |].
    destruct (max_by_span_length_ge b a). lia.
Qed.

Lemma prune_pair_keeps_longer_witness :
  ∃ w,
    prune_overlapping_matches 1 [(2, 3, 5); (1, 2, 8)] "longest"
    = Some (Return [w]) /\
    (w = (2, 3, 5) \/ w = (1, 2, 8)) /\
    span_length (2, 3, 5) <= span_length w /\
    span_length (1, 2, 8) <= span_length w.
Proof.
  apply (prune_pair_keeps_longer 0 (2, 3, 5) (1, 2, 8)). reflexivity.
Defined.

(** ** What the pruner does not look at *)

Section Equivariance.

(** A change of matches that keeps the order of the sort keys, the
    overlap test and the span lengths. *)
Variable g : Match → Match.
Hypothesis g_key : ∀ x y,
  key_leb (sort_key (g x)) (sort_key (g y))
  = key_leb (sort_key x) (sort_key y).
Hypothesis g_overlaps : ∀ x y, overlaps (g x) (g y) = overlaps x y.
Hypothesis g_span : ∀ x, span_length (g x) = span_length x.

Lemma insert_by_key_map (x : Match) (l : list Match) :
  insert_by_key (g x) (map g l) = map g (insert_by_key x l).
Proof.
  induction l as [| y l IH]; simpl; [done |].
  rewrite g_key. destruct (key_leb _ _); simpl; [done | by rewrite IH].
Qed.

Lemma sorted_map (l : list Match) : sorted (map g l) = map g (sorted l).
Proof.
  induction l as [| x l IH]; simpl; [done |].
  by rewrite IH, insert_by_key_map.
Qed.

Lemma max_by_span_length_map (a b : Match) :
  max_by_span_length (g a) (g b) = g (max_by_span_length a b).
Proof.
  unfold max_by_span_length. rewrite !g_span. by destruct (_ <? _).
Qed.

Lemma prune_loop_map (pruned : list Match) (c : Match) (l : list Match) :
  prune_loop (map g pruned) (g c) (map g l) = map g (prune_loop pruned c l).
Proof.
  revert pruned c. induction l as [| n rest IH1 IH2] using list_pair_ind;
    intros pruned c; simpl.
  - by rewrite map_app.
  - rewrite g_overlaps. destruct (overlaps c n).
    + rewrite max_by_span_length_map.
      destruct rest as [| c' rest']; simpl.
      * by rewrite map_app.
      * rewrite <- (IH2 _ c'). by rewrite map_app.
    + rewrite <- IH1. by rewrite map_app.
Qed.

Lemma prune_loop_map_nil (c : Match) (l : list Match) :
  prune_loop [] (g c) (map g l) = map g (prune_loop [] c l).
Proof. apply (prune_loop_map [] c l). Qed.

Lemma prune_map (fuel : nat) (l : list Match) (strategy : string) :
  prune_overlapping_matches fuel (map g l) strategy
  = on_returned g (prune_overlapping_matches fuel l strategy).
Proof.
  revert l strategy.
  induction fuel as [| fuel IH]; intros l strategy; simpl;
    (destruct (negb _); [done |]);
    rewrite length_map, sorted_map;
    (destruct (length l =? 0)%nat; [done |]);
    (destruct (sorted l) as [| c u]; [done |]); simpl;
    rewrite prune_loop_map_nil, length_map;
    (destruct (_ =? _)%nat; [done |]).
  - done.
  - apply IH.
Qed.

End Equivariance.

(** X5.  The pruner looks neither at the ids of the matches nor at where
    in the document they lie: giving the matches other ids, or moving all
    of them by the same number of tokens, changes what is returned in the
    same way and nothing else. *)
Theorem prune_ignores_ids_and_position (fuel : nat) (f : Z → Z) (k : Z)
    (matches : list Match) (strategy : string) :
  prune_overlapping_matches fuel (map (relabel f) matches) strategy
  = on_returned (relabel f) (prune_overlapping_matches fuel matches strategy)
  /\
  prune_overlapping_matches fuel (map (shift k) matches) strategy
  = on_returned (shift k) (prune_overlapping_matches fuel matches strategy).
Proof.
  split; apply prune_map.
  - done.
  - by intros [[? ?] ?] [[? ?] ?].
  - done.
  - intros x y. unfold key_leb, sort_key, shift, m_start, m_end. simpl. lia.
  - intros x y.
    destruct (overlaps (shift k x) (shift k y)) eqn:H1,
      (overlaps x y) eqn:H2; try done.
    + apply overlaps_true in H1. rewrite !_match_overlaps_true in H1.
      apply overlaps_false in H2.
      unfold shift, m_start, m_end in *. simpl in *. lia.
    + apply overlaps_true in H2. rewrite !_match_overlaps_true in H2.
      apply overlaps_false in H1.
      unfold shift, m_start, m_end in *. simpl in *. lia.
  - intros x. unfold span_length, shift, m_start, m_end. simpl. lia.
Qed.

(** ** The order of the input *)

Lemma NoDup_map_inj {A B} (f : A → B) (l : list A) (x y : A) :
  NoDup (map f l) → x ∈ l → y ∈ l → f x = f y → x = y.
Proof.
  induction l as [| z l IH]; simpl; intros Hnd Hx Hy Hf.
  - by apply elem_of_nil in Hx.
  - apply NoDup_cons in Hnd as [Hz Hnd].
    assert (∀ u, u ∈ l → f u ≠ f z) as Hne.
    { intros u Hu E. apply Hz. rewrite <- E.
      apply list_elem_of_In, in_map, list_elem_of_In, Hu. }
    apply elem_of_cons in Hx as [-> | Hx], Hy as [-> | Hy]; try done.
    + by destruct (Hne y Hy).
    + by destruct (Hne x Hx).
    + by apply IH.
Qed.

Lemma sorted_perm_unique (l l' : list Match) :
  l ≡ₚ l' → NoDup (map sort_key l) → sorted l = sorted l'.
Proof.
  intros Hp Hnd.
  apply (StronglySorted_unique_strong key_le).
  - intros x1 x2 Hx1 Hx2 H12 H21.
    rewrite sorted_perm in Hx1. rewrite sorted_perm, <- Hp in Hx2.
    apply (NoDup_map_inj sort_key l x1 x2 Hnd Hx1 Hx2).
    unfold key_le, sort_key in *.
    assert (m_start x1 = m_start x2 /\ m_end x1 = m_end x2) as [E1 E2] by lia.
    by rewrite E1, E2.
  - apply sorted_key_sorted.
  - apply sorted_key_sorted.
  - by rewrite !sorted_perm.
Qed.

(** X6.  The order in which the matches are given matters only among
    matches with the same start and end: if no two matches have both in
    common, every rearrangement of the input is pruned to the same list. *)
Theorem prune_input_order (fuel : nat) (l l' : list Match) :
  l ≡ₚ l' → NoDup (map sort_key l) →
  prune_overlapping_matches fuel l "longest"
  = prune_overlapping_matches fuel l' "longest".
Proof.
  intros Hp Hnd.
  destruct l as [| x l].
  { apply Permutation_nil_l in Hp. by subst. }
  pose proof (Permutation_length Hp) as Hlen.
  rewrite !prune_longest_unfold. unfold prune_pass.
  rewrite <- (sorted_perm_unique _ _ Hp Hnd), <- Hlen. done.
Qed.

Lemma prune_input_order_witness :
  prune_overlapping_matches 2 [(1, 0, 3); (2, 2, 6); (3, 5, 9)] "longest"
  = prune_overlapping_matches 2 [(3, 5, 9); (1, 0, 3); (2, 2, 6)] "longest".
Proof.
  apply (prune_input_order 2 [(1, 0, 3); (2, 2, 6); (3, 5, 9)]
           [(3, 5, 9); (1, 0, 3); (2, 2, 6)]).
  - apply (Permutation_app_comm [(1, 0, 3); (2, 2, 6)] [(3, 5, 9)]).
  - apply (bool_decide_unpack _). vm_compute. exact I.
Defined.

(** ** Span materialisation: the error path and the pipeline *)

(** X7.  The call is all or nothing, and the first failure wins: if it
    returns on the matches before some match and raises on that match
    alone (the lookup of its id or its [Span] call raises), then on the
    whole list it raises that same error and returns no span, whatever
    comes after. *)
Theorem matches_to_spans_first_error
    (strings_getitem : Doc → Z → outcome string)
    (new_Span : Doc → Z → Z → option string → outcome Span)
    (doc : Doc) (pre post : list Match) (m : Match) (set_label : bool)
    (spans : list Span) (e : exn) :
  matches_to_spans strings_getitem new_Span doc pre set_label = Return spans →
  matches_to_spans strings_getitem new_Span doc [m] set_label = Raise e →
  matches_to_spans strings_getitem new_Span doc (pre ++ m :: post) set_label
  = Raise e.
Proof.
  intros Hpre Hm.
  rewrite matches_to_spans_app, Hpre, matches_to_spans_cons.
  rewrite matches_to_spans_cons in Hm.
  destruct (span_for _ _ doc set_label m) as [sp | e']; [done |].
  by injection Hm as ->.
Qed.

Lemma matches_to_spans_first_error_witness :
  matches_to_spans example_strings_getitem spacy_Span example_doc
    ([(1457744817548311358, 0, 2)]
     ++ (11301928873487637553, 2, 3) :: [(1457744817548311358, 0, 1)]) true
  = Raise (KeyError 11301928873487637553).
Proof.
  apply (matches_to_spans_first_error example_strings_getitem spacy_Span
           example_doc [(1457744817548311358, 0, 2)]
           [(1457744817548311358, 0, 1)] (11301928873487637553, 2, 3) true
           [mkSpan example_doc 0 2 (Some "PROBLEM_0")]).
  - reflexivity.
  - reflexivity.
Defined.

(** A match outside the document stops the call before a later unknown id
    is looked up. *)
Example spacy_range_error_comes_first :
  matches_to_spans example_strings_getitem spacy_Span example_doc
    [(1457744817548311358, 0, 5); (11301928873487637553, 2, 3)] true
  = Raise IndexError.
Proof. by vm_compute. Qed.

Lemma matches_to_spans_returns (strings_getitem : Doc → Z → outcome string)
    (new_Span : Doc → Z → Z → option string → outcome Span)
    (doc : Doc) (matches : list Match) :
  Forall (λ m, ∃ label span,
            materialised strings_getitem new_Span doc m label span) matches →
  ∃ labels spans,
    Forall3 (materialised strings_getitem new_Span doc) matches labels spans.
Proof.
  induction 1 as [| m l (label & sp & Hm) _ (labels & spans & IH)].
  - exists [], []. constructor.
  - exists (label :: labels), (sp :: spans). by constructor.
Qed.

Lemma Forall3_lookup_1 {A B C} (P : A → B → C → Prop) (l : list A)
    (k : list B) (o : list C) (i : nat) (z : C) :
  Forall3 P l k o → o !! i = Some z →
  ∃ x y, l !! i = Some x /\ k !! i = Some y /\ P x y z.
Proof.
  intros H. revert i. induction H as [| x y z' l k o Hp _ IH]; intros [| i];
    simpl; try done.
  - intros [= <-]. eauto.
  - apply IH.
Qed.

(** X8.  Pruning and then materialising gives spans that share no token.
    For matches with non-empty ranges, each of which can be materialised
    (its id is held and its [Span] call returns), and a [Span] that
    records the start and end it is given: the call on the pruned matches
    returns one span for each of them, and no token of the document lies
    in two of these spans. *)
Theorem pruned_spans_share_no_token
    (strings_getitem : Doc → Z → outcome string)
    (new_Span : Doc → Z → Z → option string → outcome Span)
    (fuel : nat) (doc : Doc) (matches : list Match) :
  (∀ st en label span,
     new_Span doc st en label = Return span →
     span_start span = st /\ span_end span = en) →
  Forall (λ m, m_start m < m_end m) matches →
  Forall (λ m, ∃ label span,
            strings_getitem doc (m_id m) = Return label /\
            new_Span doc (m_start m) (m_end m) (Some label) = Return span)
    matches →
  (length matches ≤ S fuel)%nat →
  ∃ out spans,
    prune_overlapping_matches fuel matches "longest" = Some (Return out) /\
    matches_to_spans strings_getitem new_Span doc out true = Return spans /\
    length spans = length out /\
    ∀ i j si sj t, i ≠ j → spans !! i = Some si → spans !! j = Some sj →
      ¬ (span_start si <= t < span_end si /\ span_start sj <= t < span_end sj).
Proof.
  intros Hspan Hne Hmat Hlen.
  destruct (prune_longest_returns fuel matches Hlen) as [out Hout].
  destruct (prune_longest_result _ _ _ Hout) as (Hsub & Hs & Hadj).
  assert (∀ x, x ∈ out → x ∈ matches) as Hin.
  { intros x Hx. by eapply elem_of_submseteq. }
  assert (Forall (λ m, m_start m < m_end m) out) as Hne'.
  { apply Forall_forall. intros x Hx.
    by apply (proj1 (Forall_forall _ _) Hne), Hin. }
  destruct (matches_to_spans_returns strings_getitem new_Span doc out)
    as (labels & spans & H3).
  { apply Forall_forall. intros x Hx.
    by apply (proj1 (Forall_forall _ _) Hmat), Hin. }
  exists out, spans. split; [done |].
  split; [apply matches_to_spans_labelled; eauto |].
  split; [symmetry; by eapply Forall3_length_lr |].
  assert (pairwise_disjoint out) as Hd.
  { apply disjoint_list_pairwise, sorted_adjacent_disjoint; try done.
    eapply Forall_impl; [exact Hne' |]. unfold range_ordered.
    simpl. intros; lia. }
  intros i j si sj t Hij Hi Hj [Hti Htj].
  destruct (Forall3_lookup_1 _ _ _ _ i si H3 Hi) as (a & la & Ha & _ & _ & Hsa).
  destruct (Forall3_lookup_1 _ _ _ _ j sj H3 Hj) as (b & lb & Hb & _ & _ & Hsb).
  apply Hspan in Hsa as [Ea1 Ea2]. apply Hspan in Hsb as [Eb1 Eb2].
  specialize (Hd i j a b Hij Ha Hb). apply overlaps_false in Hd.
  rewrite Forall_forall in Hne'.
  pose proof (Hne' a ltac:(by eapply list_elem_of_lookup_2)).
  pose proof (Hne' b ltac:(by eapply list_elem_of_lookup_2)).
  lia.
Qed.

Lemma spacy_Span_records (doc : Doc) (st en : Z) (label : option string)
    (span : Span) :
  spacy_Span doc st en label = Return span →
  span_start span = st /\ span_end span = en.
Proof.
  unfold spacy_Span. destruct (negb _); [done |]. destruct (negb _); [done |].
  destruct label; [| done]. by intros [= <-].
Qed.

Lemma pruned_spans_share_no_token_witness :
  ∃ out spans,
    prune_overlapping_matches 2
      [(1457744817548311358, 0, 2); (1457744817548311358, 1, 2);
       (1457744817548311358, 2, 3)] "longest"
    = Some (Return out) /\
    matches_to_spans example_strings_getitem spacy_Span example_doc out true
    = Return spans /\
    length spans = length out /\
    ∀ i j si sj t, i ≠ j → spans !! i = Some si → spans !! j = Some sj →
      ¬ (span_start si <= t < span_end si /\ span_start sj <= t < span_end sj).
Proof.
  apply (pruned_spans_share_no_token example_strings_getitem spacy_Span 2
           example_doc
           [(1457744817548311358, 0, 2); (1457744817548311358, 1, 2);
            (1457744817548311358, 2, 3)]).
  - apply spacy_Span_records.
  - repeat constructor.
  - repeat constructor;
      exists "PROBLEM_0"; eexists; split; reflexivity.
  - simpl. lia.
Defined.

(** X19.  Without [set_label] the label handed to [Span] is [None].  With
    a [Span] that takes no [None] for a label, as spaCy's, the call never
    returns on a list that is not empty: it raises what the [Span] call
    for the first match raises. *)
Theorem matches_to_spans_unlabelled_raises
    (strings_getitem : Doc → Z → outcome string)
    (new_Span : Doc → Z → Z → option string → outcome Span)
    (doc : Doc) (m : Match) (matches : list Match) :
  (∀ st en, ∃ e, new_Span doc st en None = Raise e) →
  ∃ e,
    new_Span doc (m_start m) (m_end m) None = Raise e /\
    matches_to_spans strings_getitem new_Span doc (m :: matches) false
    = Raise e.
Proof.
  intros Hnone. destruct (Hnone (m_start m) (m_end m)) as [e He].
  exists e. split; [done |].
  rewrite matches_to_spans_cons. unfold span_for. by rewrite He.
Qed.

Lemma spacy_Span_no_None (doc : Doc) (st en : Z) :
  ∃ e, spacy_Span doc st en None = Raise e.
Proof.
  unfold spacy_Span. destruct (negb _); [eauto |]. destruct (negb _); eauto.
Qed.

Lemma matches_to_spans_unlabelled_raises_witness :
  ∃ e,
    spacy_Span example_doc (m_start (1457744817548311358, 0, 2))
      (m_end (1457744817548311358, 0, 2)) None = Raise e /\
    matches_to_spans example_strings_getitem spacy_Span example_doc
      ((1457744817548311358, 0, 2) :: [(1457744817548311358, 2, 3)]) false
    = Raise e.
Proof.
  apply (matches_to_spans_unlabelled_raises example_strings_getitem
           spacy_Span example_doc (1457744817548311358, 0, 2)
           [(1457744817548311358, 2, 3)]).
  apply spacy_Span_no_None.
Defined.

Example spacy_unlabelled_type_error :
  matches_to_spans example_strings_getitem spacy_Span example_doc
    [(1457744817548311358, 0, 2)] false
  = Raise TypeError
  /\ matches_to_spans example_strings_getitem spacy_Span example_doc [] false
     = Return [].
Proof. split; by vm_compute. Qed.

(** ** The registry: what [add] keeps and what it never does *)

(** The three ways an iteration of [add] can end. *)
Lemma add_rule_cases (rule : loc) (w : world) :
  (add_rule rule w = (Raise ValueError_not_base_rule, w) /\
   ∀ r, heap w !! rule ≠ Some (RuleObj r)) \/
  (∃ r type_name,
     heap w !! rule = Some (RuleObj r) /\
     pattern r = PatternOther type_name /\
     add_rule rule w =
     (Raise (ValueError_pattern_type type_name),
      let rule_id := format_rule_id (category r) (__rule_count (self w)) in
      rule_map_setitem rule_id rule
        (assign_rule_id rule rule_id (labels_add (category r) w)))) \/
  (∃ w', add_rule rule w = (Return tt, w')).
Proof.
  destruct (heap w !! rule) as [[r | ty] |] eqn:Hr.
  - destruct (pattern r) as [| src | toks | ty] eqn:Hp.
    4: { right; left. exists r, ty. split; [done |]. split; [done |].
         by apply add_rule_invalid_pattern. }
    all: right; right; unfold add_rule, bind, gets, modify; simpl;
      rewrite Hr; simpl; rewrite Hp; simpl; eauto.
  - left. unfold add_rule, bind, gets, raise. simpl. rewrite Hr. done.
  - left. unfold add_rule, bind, gets, raise. simpl. rewrite Hr. done.
Qed.

Lemma add_cons (rule : loc) (rules : list loc) (w : world) :
  add (rule :: rules) w =
  match add_rule rule w with
  | (Return _, w1) => add rules w1
  | (Raise e, w1) => (Raise e, w1)
  end.
Proof. done. Qed.

(** X9.  An object that is not a rule stops [add] before anything is
    recorded for it: the call raises the error for objects that do not
    inherit from [BaseRule], and the registry and the objects are exactly
    as the rules before it left them. *)
Theorem add_not_a_rule (w w1 : world) (pre post : list loc) (bad : loc) :
  add pre w = (Return tt, w1) →
  (∀ r, heap w1 !! bad ≠ Some (RuleObj r)) →
  add (pre ++ bad :: post) w = (Raise ValueError_not_base_rule, w1).
Proof.
  intros Hpre Hbad. unfold add in *. rewrite for_each_app, Hpre.
  fold (add (bad :: post)). rewrite add_cons.
  destruct (add_rule_cases bad w1)
    as [[-> _] | [(r & ty & Hr & _) | [w' Hret]]]; [done | | ].
  - by destruct (Hbad r).
  - apply add_rule_returns in Hret as (r & Hr & _). by destruct (Hbad r).
Qed.

Lemma add_not_a_rule_witness :
  add ([2%positive] ++ 7%positive :: [1%positive]) example_world
  = (Raise ValueError_not_base_rule, (add [2%positive] example_world).2).
Proof.
  apply (add_not_a_rule example_world (add [2%positive] example_world).2
           [2%positive] [1%positive] 7%positive).
  - reflexivity.
  - intros r. vm_compute. discriminate.
Defined.

(** X10.  Adding a batch is adding its parts one call after the other:
    [add] of a concatenation does what [add] of the first part followed,
    if that returns, by [add] of the second part does. *)
Theorem add_batches_compose (xs ys : list loc) (w : world) :
  add (xs ++ ys) w =
  match add xs w with
  | (Return _, w1) => add ys w1
  | (Raise e, w1) => (Raise e, w1)
  end.
Proof. apply for_each_app. Qed.

Lemma grows_refl (s : MedspacyMatcher) : grows s s.
Proof. unfold grows. repeat split; done || lia. Qed.

Lemma grows_trans (s1 s2 s3 : MedspacyMatcher) :
  grows s1 s2 → grows s2 s3 → grows s1 s3.
Proof.
  unfold grows.
  intros (L1 & D1 & M1 & P1 & R1 & C1 & Q1 & A1)
         (L2 & D2 & M2 & P2 & R2 & C2 & Q2 & A2).
  repeat split; first [by etrans | congruence | lia].
Qed.

Lemma add_rule_grows (rule : loc) (w : world) :
  grows (self w) (self (add_rule rule w).2).
Proof.
  unfold add_rule, bind, gets, modify, raise. simpl.
  destruct (heap w !! rule) as [[r | ty] |]; simpl; try apply grows_refl.
  destruct (pattern r); simpl; unfold grows; simpl;
    repeat split; try done; try set_solver; try lia;
    try (by apply prefix_app_r).
Qed.

Lemma add_grows (rules : list loc) (w : world) :
  grows (self w) (self (add rules w).2).
Proof.
  revert w. induction rules as [| rule rules IH]; intros w.
  - apply grows_refl.
  - rewrite add_cons. pose proof (add_rule_grows rule w) as H1.
    destruct (add_rule rule w) as [[[] | e] w1]; simpl in *; [| done].
    eapply grows_trans; [exact H1 | apply IH].
Qed.

(** X11.  [add] only adds: whether it returns or raises, the registry it
    leaves holds every category, every key of the rule map and every
    registration of each engine that was there before, in the same order;
    the counter has not gone back, and the pruning flag and the phrase
    attribute are unchanged. *)
Theorem add_only_adds (rules : list loc) (w : world) :
  _labels (self w) ⊆ _labels (self (add rules w).2) /\
  dom (_rule_map (self w)) ⊆ dom (_rule_map (self (add rules w).2)) /\
  __matcher (self w) `prefix_of` __matcher (self (add rules w).2) /\
  __phrase_matcher (self w)
    `prefix_of` __phrase_matcher (self (add rules w).2) /\
  __regex_matcher (self w) `prefix_of` __regex_matcher (self (add rules w).2) /\
  (__rule_count (self w) ≤ __rule_count (self (add rules w).2))%N /\
  _prune (self (add rules w).2) = _prune (self w) /\
  __phrase_matcher_attr (self (add rules w).2)
  = __phrase_matcher_attr (self w).
Proof. apply add_grows. Qed.

Lemma add_rule_registrations (rule : loc) (w : world) :
  N.of_nat (registrations (self w)) = __rule_count (self w) →
  N.of_nat (registrations (self (add_rule rule w).2))
  = __rule_count (self (add_rule rule w).2).
Proof.
  unfold add_rule, bind, gets, modify, raise, registrations. simpl.
  destruct (heap w !! rule) as [[r | ty] |]; simpl; try done.
  destruct (pattern r); simpl; rewrite ?length_app; simpl; lia.
Qed.

Lemma add_registrations (rules : list loc) (w : world) :
  N.of_nat (registrations (self w)) = __rule_count (self w) →
  N.of_nat (registrations (self (add rules w).2))
  = __rule_count (self (add rules w).2).
Proof.
  revert w. induction rules as [| rule rules IH]; intros w Hw; [done |].
  rewrite add_cons. pose proof (add_rule_registrations rule w Hw) as H1.
  destruct (add_rule rule w) as [[[] | e] w1]; simpl in *; [| done].
  by apply IH.
Qed.

(** X12.  However the calls of [add] on a registry ended, the counter
    equals the number of registrations the three engines hold together:
    every rule that was counted went to exactly one engine, and a rule that
    was rejected was neither counted nor registered. *)
Theorem reachable_registrations_counted (w : world) :
  reachable w →
  N.of_nat (length (__matcher (self w)) + length (__phrase_matcher (self w))
            + length (__regex_matcher (self w)))
  = __rule_count (self w).
Proof.
  induction 1 as [h attr prune | w rules _ IH | w h _ IH]; try done.
  by apply add_registrations.
Qed.

Lemma reachable_registrations_counted_witness :
  N.of_nat
    (length (__matcher (self (add [2%positive; 1%positive] example_world).2))
     + length (__phrase_matcher
                 (self (add [2%positive; 1%positive] example_world).2))
     + length (__regex_matcher
                 (self (add [2%positive; 1%positive] example_world).2)))
  = __rule_count (self (add [2%positive; 1%positive] example_world).2).
Proof.
  apply (reachable_registrations_counted
           (add [2%positive; 1%positive] example_world).2).
  apply reachable_add. apply reachable_init.
Defined.

(** *** Looking a rule up after it was added *)

(** An iteration of [add] writes on no object other than its rule. *)
Lemma add_rule_heap_other (rule rule' : loc) (w : world) :
  rule' ≠ rule → heap (add_rule rule w).2 !! rule' = heap w !! rule'.
Proof.
  intros Hne. unfold add_rule, bind, gets, modify, raise. simpl.
  destruct (heap w !! rule) as [[r | ty] |] eqn:Hr; simpl; try done.
  destruct (pattern r); simpl; unfold assign_rule_id; simpl; rewrite Hr;
    by rewrite lookup_insert_ne.
Qed.

(** An iteration of [add] leaves the entries of the rule map alone whose
    key was formed from a number below the counter. *)
Lemma add_rule_map_below (rule : loc) (w : world) (c : string) (n : N) :
  (n < __rule_count (self w))%N →
  _rule_map (self (add_rule rule w).2) !! format_rule_id c n
  = _rule_map (self w) !! format_rule_id c n.
Proof.
  intros Hn. unfold add_rule, bind, gets, modify, raise. simpl.
  destruct (heap w !! rule) as [[r | ty] |] eqn:Hr; simpl; try done.
  assert (format_rule_id (category r) (__rule_count (self w))
          ≠ format_rule_id c n) as Hne.
  { intros [_ E]%format_rule_id_inj. lia. }
  destruct (pattern r); simpl; by rewrite lookup_insert_ne.
Qed.

Lemma add_heap_other (rules : list loc) (rule' : loc) (w : world) :
  rule' ∉ rules → heap (add rules w).2 !! rule' = heap w !! rule'.
Proof.
  revert w. induction rules as [| rule rules IH]; intros w Hnot; [done |].
  apply not_elem_of_cons in Hnot as [Hne Hnot].
  rewrite add_cons. pose proof (add_rule_heap_other rule rule' w Hne) as H1.
  destruct (add_rule rule w) as [[[] | e] w1]; simpl in *; [| done].
  by rewrite IH.
Qed.

Lemma add_map_below (rules : list loc) (w : world) (c : string) (n : N) :
  (n < __rule_count (self w))%N →
  _rule_map (self (add rules w).2) !! format_rule_id c n
  = _rule_map (self w) !! format_rule_id c n.
Proof.
  revert w. induction rules as [| rule rules IH]; intros w Hn; [done |].
  rewrite add_cons. pose proof (add_rule_map_below rule w c n Hn) as H1.
  pose proof (add_rule_grows rule w) as (_ & _ & _ & _ & _ & Hc & _).
  destruct (add_rule rule w) as [[[] | e] w1]; simpl in *; [| done].
  rewrite IH by lia. done.
Qed.

(** X13.  After a call of [add] that returned, every rule of the batch can
    be looked up by the id written on it: the rule map holds the rule
    under that id, and the category set holds the rule's category.  This
    is so also when the batch names a rule more than once. *)
Theorem add_then_lookup (rules : list loc) (w w' : world) (rule : loc) :
  add rules w = (Return tt, w') →
  rule ∈ rules →
  ∃ r rule_id,
    heap w' !! rule = Some (RuleObj r) /\
    _rule_id r = Some rule_id /\
    _rule_map (self w') !! rule_id = Some rule /\
    category r ∈ _labels (self w').
Proof.
  revert w. induction rules as [| x rules IH]; intros w Hadd Hin.
  - by apply elem_of_nil in Hin.
  - rewrite add_cons in Hadd.
    destruct (add_rule x w) as [[[] | e] w1] eqn:Hx; [| done].
    destruct (decide (rule ∈ rules)) as [Hrest | Hrest].
    { by apply (IH w1). }
    apply elem_of_cons in Hin as [-> | Hin]; [| done].
    apply add_rule_returns in Hx as (r & Hr & Hmap & Hlab & Hcount & Hheap).
    pose proof (add_grows rules w1) as (Hsub & _).
    pose proof (add_heap_other rules x w1 Hrest) as Hh.
    pose proof (add_map_below rules w1 (category r) (__rule_count (self w))
                  ltac:(lia)) as Hm.
    rewrite Hadd in Hsub, Hh, Hm. simpl in *.
    exists (set_rule_id (format_rule_id (category r) (__rule_count (self w))) r),
      (format_rule_id (category r) (__rule_count (self w))).
    split; [by rewrite Hh, Hheap, lookup_insert_eq |].
    split; [done |].
    split; [by rewrite Hm, Hmap, lookup_insert_eq |].
    simpl. apply Hsub. rewrite Hlab.
    apply elem_of_union_l. by apply elem_of_singleton.
Qed.

Lemma add_then_lookup_witness :
  ∃ r rule_id,
    heap (add [2%positive; 2%positive] example_world).2 !! 2%positive
    = Some (RuleObj r) /\
    _rule_id r = Some rule_id /\
    _rule_map (self (add [2%positive; 2%positive] example_world).2) !! rule_id
    = Some 2%positive /\
    category r ∈ _labels (self (add [2%positive; 2%positive] example_world).2).
Proof.
  apply (add_then_lookup [2%positive; 2%positive] example_world
           (add [2%positive; 2%positive] example_world).2 2%positive).
  - reflexivity.
  - apply list_elem_of_here.
Defined.

(** *** One entry for every rule, as long as no call raises *)

Lemma add_rule_keeps_size (w w' : world) (rule : loc) :
  ids_below_count (self w) →
  N.of_nat (size (_rule_map (self w))) = __rule_count (self w) →
  add_rule rule w = (Return tt, w') →
  N.of_nat (size (_rule_map (self w'))) = __rule_count (self w').
Proof.
  intros Hinv Hsize Hadd.
  destruct (add_rule_fresh_id w w' rule Hinv Hadd) as (rid & _ & Hfresh & _).
  apply add_rule_returns in Hadd as (r & Hr & Hmap & _ & Hcount & Hheap).
  rewrite Hmap, Hcount.
  rewrite map_size_insert_None; [lia |].
  destruct (_rule_map (self w) !! format_rule_id _ _) eqn:Hk; [| done].
  destruct (Hinv _ (mk_is_Some _ _ Hk)) as (c & n & Heq & Hn).
  apply format_rule_id_inj in Heq as [_ Heq]. exfalso. clear - Heq Hn. lia.
Qed.

Lemma add_keeps_size (rules : list loc) (w w' : world) :
  ids_below_count (self w) →
  N.of_nat (size (_rule_map (self w))) = __rule_count (self w) →
  add rules w = (Return tt, w') →
  N.of_nat (size (_rule_map (self w'))) = __rule_count (self w').
Proof.
  revert w. induction rules as [| rule rules IH]; intros w Hinv Hsize Hadd.
  - by injection Hadd as <-.
  - rewrite add_cons in Hadd.
    destruct (add_rule rule w) as [[[] | e] w1] eqn:H1; [| done].
    apply (IH w1); try done.
    + by eapply add_rule_keeps_ids_below_count.
    + by eapply add_rule_keeps_size.
Qed.

(** X14.  As long as every call of [add] returns, the rule map has exactly
    one entry per rule counted: no two of the rules were given the same id,
    and no entry was overwritten. *)
Theorem registered_one_entry_per_rule (w : world) :
  registered w →
  N.of_nat (size (_rule_map (self w))) = __rule_count (self w).
Proof.
  induction 1 as [h attr prune | w rules w' Hreg IH Hadd | w h _ IH].
  - done.
  - eapply add_keeps_size; [| exact IH | exact Hadd].
    by apply registered_ids_below_count.
  - done.
Qed.

Lemma registered_one_entry_per_rule_witness :
  N.of_nat (size (_rule_map
                    (self (add [2%positive; 2%positive] example_world).2)))
  = __rule_count (self (add [2%positive; 2%positive] example_world).2).
Proof.
  apply (registered_one_entry_per_rule
           (add [2%positive; 2%positive] example_world).2).
  apply (registered_add example_world [2%positive; 2%positive]).
  - apply registered_init.
  - reflexivity.
Defined.

(** *** The older copy numbers rules by their place in [_rules] *)







(** ** Matching a document *)

(** X16.  [__call__] hands back the matches of the attribute-pattern
    engine, then those of the phrase engine, then those of the regex
    engine.  With pruning off it returns exactly that list; with pruning on
    it returns a sub-multiset of it, sorted by [(start, end)], in which no
    two matches overlap. *)
Theorem call_returns_engine_matches
    (run_matcher : engine (list token_pattern))
    (run_phrase_matcher : engine phrase_doc)
    (run_regex_matcher : engine string)
    (fuel : nat) (s : MedspacyMatcher) (doc : Doc) :
  let found :=
    (run_matcher (__matcher s) doc
     ++ run_phrase_matcher (__phrase_matcher s) doc)
    ++ run_regex_matcher (__regex_matcher s) doc in
  Forall range_ordered found →
  (length found ≤ S fuel)%nat →
  ∃ out,
    __call__ run_matcher run_phrase_matcher run_regex_matcher fuel s doc
    = Some (Return out) /\
    (_prune s = false → out = found) /\
    (_prune s = true →
     out ⊆+ found /\ key_sorted out /\ pairwise_disjoint out).
Proof.
  intros found Hwf Hlen. unfold __call__. fold found.
  destruct (_prune s).
  - destruct (prune_longest_returns fuel found Hlen) as [out Hout].
    exists out. split; [done |]. split; [done |]. intros _.
    destruct (prune_longest_result _ _ _ Hout) as (Hsub & Hs & Hadj).
    split; [done |]. split; [done |].
    apply disjoint_list_pairwise, sorted_adjacent_disjoint; try done.
    rewrite Forall_forall in *. intros x Hx.
    apply Hwf. by eapply elem_of_submseteq.
  - exists found. split; [done |]. split; [done | done].
Qed.

Lemma call_returns_engine_matches_witness :
  ∃ out,
    __call__ example_matcher example_phrase_matcher example_regex_matcher 2
      (init "LOWER" true) example_doc
    = Some (Return out) /\
    (_prune (init "LOWER" true) = false →
     out = ([(1, 2, 6)] ++ [(2, 0, 3)]) ++ [(3, 6, 9)]) /\
    (_prune (init "LOWER" true) = true →
     out ⊆+ ([(1, 2, 6)] ++ [(2, 0, 3)]) ++ [(3, 6, 9)] /\
     key_sorted out /\ pairwise_disjoint out).
Proof.
  apply (call_returns_engine_matches example_matcher example_phrase_matcher
           example_regex_matcher 2 (init "LOWER" true) example_doc).
  - repeat constructor; unfold range_ordered, m_start, m_end; simpl; lia.
  - simpl. lia.
Defined.

Lemma target_matcher_matches_to_spans_loop
    (strings_getitem : Doc → Z → outcome string)
    (new_Span : Doc → Z → Z → option string → outcome Span)
    (doc : Doc) (set_label : bool) (spans : list Span)
    (matches : list Match) :
  TargetMatcher.matches_to_spans_loop strings_getitem new_Span doc set_label
    spans matches
  = matches_to_spans_loop strings_getitem new_Span doc set_label spans matches.
Proof.
  revert spans. induction matches as [| [[rid st] en] l IH]; intros spans;
    simpl; [done |].
  destruct (if set_label then _ else _) as [label | e]; [| done].
  destruct (new_Span doc st en label); [apply IH | done].
Qed.

(** X17.  The older copy of the matcher computes what the newer one does:
    the same overlap test, the same pruning and, with the same string store
    and [Span], the same spans or the same error; and where the three
    engines answer the older registry as they answer a newer registry that
    has pruning on, [__call__] returns the same for both. *)
Theorem old_copy_agrees
    (strings_getitem : Doc → Z → outcome string)
    (new_Span : Doc → Z → Z → option string → outcome Span)
    (run_matcher : engine (list token_pattern))
    (run_phrase_matcher : engine phrase_doc)
    (run_regex_matcher : engine string)
    (fuel : nat) (old : TargetMatcher.MedspacyMatcher) (s : MedspacyMatcher)
    (doc : Doc) (a b : Match) (matches : list Match) (strategy : string)
    (set_label : bool) :
  run_matcher (TargetMatcher.matcher old) doc = run_matcher (__matcher s) doc →
  run_phrase_matcher (TargetMatcher.phrase_matcher old) doc
  = run_phrase_matcher (__phrase_matcher s) doc →
  run_regex_matcher (TargetMatcher.regex_matcher old) doc
  = run_regex_matcher (__regex_matcher s) doc →
  _prune s = true →
  TargetMatcher.overlaps a b = overlaps a b /\
  TargetMatcher.prune_overlapping_matches fuel matches strategy
  = prune_overlapping_matches fuel matches strategy /\
  TargetMatcher.matches_to_spans strings_getitem new_Span doc matches set_label
  = matches_to_spans strings_getitem new_Span doc matches set_label /\
  TargetMatcher.__call__ run_matcher run_phrase_matcher run_regex_matcher
    fuel old doc
  = __call__ run_matcher run_phrase_matcher run_regex_matcher fuel s doc.
Proof.
  intros Hm Hp Hr Hprune.
  split; [done |]. split; [apply target_matcher_prune |].
  split; [apply target_matcher_matches_to_spans_loop |].
  unfold TargetMatcher.__call__, __call__.
  rewrite Hm, Hp, Hr, Hprune. apply target_matcher_prune.
Qed.

Lemma old_copy_agrees_witness :
  TargetMatcher.overlaps (1457744817548311358, 0, 2) (1457744817548311358, 1, 3) = overlaps (1457744817548311358, 0, 2) (1457744817548311358, 1, 3) /\
  TargetMatcher.prune_overlapping_matches 2 [(1457744817548311358, 0, 2); (1457744817548311358, 1, 3)] "longest"
  = prune_overlapping_matches 2 [(1457744817548311358, 0, 2); (1457744817548311358, 1, 3)] "longest" /\
  TargetMatcher.matches_to_spans example_strings_getitem spacy_Span
    example_doc [(1457744817548311358, 0, 2); (1457744817548311358, 1, 3)] true
  = matches_to_spans example_strings_getitem spacy_Span example_doc
      [(1457744817548311358, 0, 2); (1457744817548311358, 1, 3)] true /\
  TargetMatcher.__call__ one_per_registration one_per_registration
    one_per_registration 2
    (TargetMatcher.self
       (TargetMatcher.add [2%positive; 2%positive] example_world_old).2)
    example_doc
  = __call__ one_per_registration one_per_registration one_per_registration 2
      (self (add [2%positive; 2%positive] example_world).2) example_doc.
Proof.
  apply (old_copy_agrees example_strings_getitem spacy_Span
           one_per_registration one_per_registration one_per_registration 2
           (TargetMatcher.self
              (TargetMatcher.add [2%positive; 2%positive] example_world_old).2)
           (self (add [2%positive; 2%positive] example_world).2)
           example_doc (1457744817548311358, 0, 2) (1457744817548311358, 1, 3) [(1457744817548311358, 0, 2); (1457744817548311358, 1, 3)] "longest"
           true); reflexivity.
Defined.

(** ** The two copies of [add] *)




